(** * Multi-step form: step navigation and validation

    Shallow embedding of [src/components/form.tsx].

    The component keeps four pieces of React state ([previousStep],
    [currentStep], [isSubmitted], [formData]) and one [useForm] store
    (the values returned by [getValues()] and [formState.errors]).  The
    handlers [saveStepData], [processForm], [next], [prev], [formatValue]
    and [loadStepData] are embedded as functions on a record holding all
    of that state.  An asynchronous handler is taken as one atomic
    transition: overlapping invocations are not modelled. *)

From stdpp Require Import gmap strings list fin_maps.
From Stdlib Require Import ZArith Lia.

Open Scope Z_scope.

(** ** JavaScript values and objects *)

(** The values a form field can hold: [undefined], a string or a
    boolean. *)
Inductive value : Type :=
| VUndefined
| VString (s : string)
| VBoolean (b : bool).

#[global] Instance value_eq_dec : EqDecision value.
Proof. solve_decision. Defined.

(** A plain object is a finite map from property names to values; a
    property can be present and hold [undefined]. *)
Abbreviation object := (gmap string value).

(** [o[k]]: reading a missing property yields [undefined]. *)
Definition prop (o : object) (k : string) : value :=
  default VUndefined (o !! k).

(** [Object.keys(o)]. *)
Definition keys (o : object) : list string := (map_to_list o).*1.

(** [{ ...a, ...b }]: the properties of [b] win. *)
Definition spread (a b : object) : object := b ∪ a.

(** ** The schema (lines 9-20) *)

Inductive ztype : Type :=
| ZStringMin (n : nat) (msg : string)   (* z.string().min(n, msg) *)
| ZStringEmail (msg : string)           (* z.string().email(msg) *)
| ZBooleanOptional.                     (* z.boolean().optional() *)

Definition FormDataSchema : list (string * ztype) :=
  [ ("firstName", ZStringMin 1 "First name is required");
    ("lastName", ZStringMin 1 "Last name is required");
    ("email", ZStringEmail "Invalid email address");
    ("country", ZStringMin 1 "Country is required");
    ("state", ZStringMin 1 "State is required");
    ("city", ZStringMin 1 "City is required");
    ("street", ZStringMin 1 "Street is required");
    ("zip", ZStringMin 1 "ZIP code is required");
    ("joinNewsletter", ZBooleanOptional);
    ("enableNotification", ZBooleanOptional) ].

(** The shape a schema gives to a field, if it lists the field. *)
Fixpoint shapeIn (schema : list (string * ztype)) (f : string) : option ztype :=
  match schema with
  | [] => None
  | (g, t) :: rest => if decide (g = f) then Some t else shapeIn rest f
  end.

Definition shapeOf (f : string) : option ztype := shapeIn FormDataSchema f.

(** ** The steps (lines 24-41) *)

Record stepDef : Type := StepDef {
  id : string;
  name : string;
  fields : option (list string)   (* the last step has no [fields] property *)
}.

Definition steps : list stepDef :=
  [ StepDef "Step 1" "Personal Information"
      (Some ["firstName"; "lastName"; "email"]);
    StepDef "Step 2" "Address Details"
      (Some ["country"; "state"; "city"; "street"; "zip"]);
    StepDef "Step 3" "Preferences"
      (Some ["joinNewsletter"; "enableNotification"]);
    StepDef "Step 4" "Review & Submit" None ].

(** [steps.length]. *)
Definition stepCount : Z := Z.of_nat (length steps).

(** [steps[i]]: [undefined] outside the array. *)
Definition stepAt (i : Z) : option stepDef :=
  if i <? 0 then None else steps !! Z.to_nat i.

(** [steps[i]?.fields || []]. *)
Definition ownedFields (i : Z) : list string :=
  match stepAt i with
  | Some st => default [] (fields st)
  | None => []
  end.

(** The inputs the markup registers at each step (lines 172-419): the
    text inputs of steps 0 and 1, the checkboxes of step 2, none on the
    review step. *)
Definition inputsAt (i : Z) : list string :=
  if i =? 0 then ["firstName"; "lastName"; "email"]
  else if i =? 1 then ["country"; "state"; "city"; "street"; "zip"]
  else if i =? 2 then ["joinNewsletter"; "enableNotification"]
  else [].

(** ** Component state *)

(** Calls made by the handlers, recorded in order.  The record is not
    part of the component; it is kept so that properties about which
    call happens, how often and in which order can be stated. *)
Inductive call : Type :=
| CTrigger (names : option (list string))
| CHandleSubmit
| CProcessForm
| CSetPreviousStep (n : Z)
| CSetCurrentStep (n : Z).

#[global] Instance call_eq_dec : EqDecision call.
Proof. solve_decision. Defined.

Record state : Type := State {
  previousStep : Z;
  currentStep : Z;
  isSubmitted : bool;
  formData : object;
  formValues : object;              (* useForm: what getValues() returns *)
  errors : gmap string string;      (* useForm: formState.errors, by message *)
  calls : list call
}.

(** The state on mount (lines 44-59). *)
Definition init : state :=
  State 0 0 false ∅ ∅ ∅ [].

Definition setPreviousStep (n : Z) (s : state) : state :=
  State n (currentStep s) (isSubmitted s) (formData s) (formValues s)
        (errors s) (calls s ++ [CSetPreviousStep n]).

(** [setCurrentStep(f)] with an updater function. *)
Definition setCurrentStep (f : Z → Z) (s : state) : state :=
  State (previousStep s) (f (currentStep s)) (isSubmitted s) (formData s)
        (formValues s) (errors s)
        (calls s ++ [CSetCurrentStep (f (currentStep s))]).

Definition setIsSubmitted (b : bool) (s : state) : state :=
  State (previousStep s) (currentStep s) b (formData s) (formValues s)
        (errors s) (calls s).

(** [setFormData(f)] with an updater function. *)
Definition setFormData (f : object → object) (s : state) : state :=
  State (previousStep s) (currentStep s) (isSubmitted s) (f (formData s))
        (formValues s) (errors s) (calls s).

Definition withErrors (e : gmap string string) (s : state) : state :=
  State (previousStep s) (currentStep s) (isSubmitted s) (formData s)
        (formValues s) e (calls s).

Definition withCall (c : call) (s : state) : state :=
  State (previousStep s) (currentStep s) (isSubmitted s) (formData s)
        (formValues s) (errors s) (calls s ++ [c]).

Definition getValues (s : state) : object := formValues s.

(** [setValue(name, v)] of the form store. *)
Definition setValue (f : string) (v : value) (s : state) : state :=
  State (previousStep s) (currentStep s) (isSubmitted s) (formData s)
        (<[f := v]> (formValues s)) (errors s) (calls s).

(** ** Validation and the handlers *)

(** What the schema library decides and the source does not fix: which
    strings count as email-shaped, and the message reported for a value
    of the wrong type (given the expected type and the value). *)
Class Zod : Type := {
  isEmail : string → bool;
  invalidType : string → value → string
}.

Section Handlers.
Context {lib : Zod}.

(** Modelled from the spec: the check of one value against the shape of
    its field, which the schema library performs (section 4.2: required
    string fields with minimum length 1, an email-shaped string, optional
    booleans).  [None] means the value passes; otherwise the message.
    Only emptiness matters for the minimum length 1, so the length is
    counted on the string as given. *)
Definition safeParseField (t : ztype) (v : value) : option string :=
  match t, v with
  | ZStringMin n msg, VString s =>
      if (n <=? String.length s)%nat then None else Some msg
  | ZStringMin _ _, _ => Some (invalidType "string" v)
  | ZStringEmail msg, VString s => if isEmail s then None else Some msg
  | ZStringEmail _, _ => Some (invalidType "string" v)
  | ZBooleanOptional, VUndefined => None
  | ZBooleanOptional, VBoolean _ => None
  | ZBooleanOptional, VString _ => Some (invalidType "boolean" v)
  end.

(** The error of a field holding [v]: fields outside the schema are
    ignored. *)
Definition fieldError (f : string) (v : value) : option string :=
  match shapeOf f with
  | Some t => safeParseField t v
  | None => None
  end.

(** Modelled from the spec: the resolver built from a schema (section
    4.2, full-schema validation): every field of the schema is checked
    on the given values, and the result maps each failing field to its
    message. *)
Definition resolve (schema : list (string * ztype)) (values : object)
  : gmap string string :=
  foldr (λ p found,
           match safeParseField p.2 (prop values p.1) with
           | Some msg => <[p.1 := msg]> found
           | None => found
           end) ∅ schema.

Definition zodResolver (values : object) : gmap string string :=
  resolve FormDataSchema values.

(** Modelled from the spec: [trigger(names)] of the form library (section
    4.2): validates the current values, records the outcome of the named
    fields only (an error is set, or cleared) and answers whether all of
    them pass.  Without names it records the outcome of every field. *)
Definition trigger (names : option (list string)) (s : state) : bool * state :=
  let found := zodResolver (getValues s) in
  let s' := withCall (CTrigger names) s in
  match names with
  | Some ns =>
      (forallb (λ n, bool_decide (found !! n = None)) ns,
       withErrors
         (foldl (λ errs n,
                   match found !! n with
                   | Some e => <[n := e]> errs
                   | None => delete n errs
                   end) (errors s) ns) s')
  | None => (bool_decide (dom found = ∅), withErrors found s')
  end.

(** Modelled from the spec: [handleSubmit(onValid)()] of the form library
    (section 4.1): validates the current values against the whole schema,
    records all errors, and runs [onValid] when there is none. *)
Definition handleSubmit (onValid : object → state → state) (s : state) : state :=
  let found := zodResolver (getValues s) in
  let s' := withErrors found (withCall CHandleSubmit s) in
  if bool_decide (dom found = ∅) then onValid (getValues s) s' else s'.

(** Lines 62-75. *)
Definition saveStepData (s : state) : state :=
  let currentValues := getValues s in
  let currentFields := ownedFields (currentStep s) in
  let stepData :=
    foldl (λ acc field,
             let v := prop currentValues field in
             if decide (v ≠ VUndefined) then <[field := v]> acc else acc)
          (∅ : object) currentFields in
  setFormData (λ prev, spread prev stepData) s.

(** Lines 78-81; the logging of the data is left out. *)
Definition processForm (data : object) (s : state) : state :=
  setIsSubmitted true (withCall CProcessForm s).

(** Lines 85-100.  Reading [fields] of a step outside the array throws
    before anything is changed: [None]. *)
Definition next (s : state) : option state :=
  match stepAt (currentStep s) with
  | None => None
  | Some st =>
      let '(output, s1) := trigger (fields st) s in
      if negb output then Some s1
      else
        let s2 := saveStepData s1 in
        if currentStep s <? stepCount - 1 then
          let s3 :=
            if currentStep s =? stepCount - 2
            then handleSubmit processForm s2
            else s2 in
          Some (setCurrentStep (λ step, step + 1)
                  (setPreviousStep (currentStep s) s3))
        else Some s2
  end.

(** Lines 102-107. *)
Definition prev (s : state) : state :=
  if 0 <? currentStep s
  then setCurrentStep (λ step, step - 1) (setPreviousStep (currentStep s) s)
  else s.

(** Lines 108-113: the empty string and [undefined] are falsy. *)
Definition formatValue (v : value) : string :=
  match v with
  | VBoolean b => if b then "Yes" else "No"
  | VString s => if decide (s = "") then "Not provided" else s
  | VUndefined => "Not provided"
  end.

(** Lines 125-129. *)
Definition loadStepData (s : state) : state :=
  foldl (λ acc field, setValue field (prop (formData s) field) acc)
        s (keys (formData s)).

(** Lines 130-132: the effect runs after a render in which
    [currentStep] has changed. *)
Definition rerender (old new : state) : state :=
  if currentStep old =? currentStep new then new else loadStepData new.

(** ** User actions *)

Inductive event : Type :=
| Advance                          (* the Next button: [next] *)
| Retreat                          (* the Previous button: [prev] *)
| Edit (f : string) (v : value)    (* a change of a registered input *)
| Submit.                          (* submitting the form element *)

(** What an action does once it reaches its handler.  An exception in
    [next] leaves the state as it was.  A change of an input stores the
    new value; the re-validation the form library may run on a change
    only refreshes the displayed errors and is left out. *)
Definition fire (e : event) (s : state) : state :=
  match e with
  | Advance => match next s with Some s' => rerender s s' | None => s end
  | Retreat => rerender s (prev s)
  | Edit f v => setValue f v s
  | Submit => handleSubmit processForm s
  end.

(** Whether the markup offers the action (lines 171-496): Next is not
    rendered on the last step, Previous is disabled on the first, only
    the inputs of the current step are mounted, and the submit button is
    rendered on step 3 while the form is not submitted. *)
Definition offered (s : state) (e : event) : bool :=
  match e with
  | Advance => negb (currentStep s =? stepCount - 1)
  | Retreat => negb (currentStep s =? 0)
  | Edit f _ => bool_decide (f ∈ inputsAt (currentStep s))
  | Submit => (currentStep s =? 3) && negb (isSubmitted s)
  end.

Fixpoint run (t : list event) (s : state) : state :=
  match t with
  | [] => s
  | e :: t' => run t' (fire e s)
  end.

(** Every action of the trace is offered when it is taken. *)
Fixpoint offeredAll (t : list event) (s : state) : bool :=
  match t with
  | [] => true
  | e :: t' => offered s e && offeredAll t' (fire e s)
  end.

(** The actions of a trace at which [isSubmitted] turns from false to
    true, each with the state it was taken in. *)
Fixpoint flips (t : list event) (s : state) : list (state * event) :=
  match t with
  | [] => []
  | e :: t' =>
      (if negb (isSubmitted s) && isSubmitted (fire e s) then [(s, e)] else [])
      ++ flips t' (fire e s)
  end.

(** No action [Advance] of the trace is taken while the index is [k]. *)
Fixpoint noAdvanceAt (k : Z) (t : list event) (s : state) : Prop :=
  match t with
  | [] => True
  | e :: t' => (e = Advance → currentStep s ≠ k) ∧ noAdvanceAt k t' (fire e s)
  end.

(** No action of the trace changes the input of [f]. *)
Definition untouched (f : string) (t : list event) : Prop :=
  Forall (λ e, ∀ v, e ≠ Edit f v) t.




(** ** Invariants of the reachable states *)

(** No key of the object holds [undefined]. *)
Definition noUndefined (o : object) : Prop :=
  ∀ k, o !! k ≠ Some VUndefined.

(** Every recorded value passes the check of its field. *)
Definition validData (o : object) : Prop :=
  ∀ k v, o !! k = Some v → fieldError k v = None.

Record Inv (s : state) : Prop := {
  inv_range : 0 ≤ currentStep s ≤ stepCount - 1;
  inv_data : validData (formData s);
  inv_passed : ∀ j f, 0 ≤ j < currentStep s → f ∈ ownedFields j →
                      fieldError f (prop (formValues s) f) = None;
  inv_review : currentStep s = stepCount - 1 → isSubmitted s = true
}.


(** C7 as it is worded: [loadStepData] changes the input of a field only
    if the step being entered owns the field and the field was
    recorded. *)
Definition prefillsOnlyOwned (s : state) : Prop :=
  ∀ f, formValues (loadStepData s) !! f ≠ formValues s !! f →
       f ∈ ownedFields (currentStep s) ∧ is_Some (formData s !! f).

End Handlers.

(** ** Sample data *)

(** A schema library for the examples: a string with an at sign counts
    as email-shaped, and every value of the wrong type is reported with
    the same message. *)
Definition sampleZod : Zod := {|
  isEmail := λ e, bool_decide (Ascii.ascii_of_nat 64 ∈ String.list_ascii_of_string e);
  invalidType := λ _ _, "Required"
|}.

(** Filling in the first step. *)
Definition fillPersonal : list event :=
  [ Edit "firstName" (VString "Ada"); Edit "lastName" (VString "Lovelace");
    Edit "email" (VString "ada@example.org") ].

(** Filling in the second step. *)
Definition fillAddress : list event :=
  [ Edit "country" (VString "UK"); Edit "state" (VString "England");
    Edit "city" (VString "London"); Edit "street" (VString "St James");
    Edit "zip" (VString "SW1") ].

(** A whole forward traversal with valid data. *)
Definition traversal : list event :=
  fillPersonal ++ [Advance] ++ fillAddress ++ [Advance] ++
  [Edit "joinNewsletter" (VBoolean true)] ++ [Advance].

(** The state, before the effect of the re-render, of a user who has
    completed step 1, came back to it from step 2, changed the country
    without validating, and goes back to step 0. *)
Definition backAtPersonal : state :=
  prev (run (lib := sampleZod)
          (fillPersonal ++ [Advance] ++ fillAddress ++
           [Advance; Retreat; Edit "country" (VString "France")])
          init).

(** The first step filled in, not yet validated. *)
Definition personalFilled : state := run (lib := sampleZod) fillPersonal init.

(** The first step with an empty first name and a malformed email. *)
Definition personalWrong : state :=
  run (lib := sampleZod)
      [Edit "firstName" (VString ""); Edit "email" (VString "bad")] init.

(** The first step completed: the user stands on the second one. *)
Definition addressReached : state :=
  run (lib := sampleZod) (fillPersonal ++ [Advance]) init.

(** From the second step: to the review and back to the second step. *)
Definition thereAndBack : list event :=
  fillAddress ++ [Advance; Advance; Retreat; Retreat].

(** ** Rendering *)

(** The character class [A-Z]. *)
Definition isUpper (c : Ascii.ascii) : bool :=
  (65 <=? Ascii.nat_of_ascii c)%nat && (Ascii.nat_of_ascii c <=? 90)%nat.

(** The lower-case letters of ASCII. *)
Definition isLower (c : Ascii.ascii) : bool :=
  (97 <=? Ascii.nat_of_ascii c)%nat && (Ascii.nat_of_ascii c <=? 122)%nat.

(** [toUpperCase()] on one ASCII character. *)
Definition toUpperCase (c : Ascii.ascii) : Ascii.ascii :=
  if isLower c then Ascii.ascii_of_nat (Ascii.nat_of_ascii c - 32) else c.

(** [.replace(/([A-Z])/g, ' $1')]: a space in front of every capital. *)
Fixpoint spaceCapitals (s : string) : string :=
  match s with
  | EmptyString => EmptyString
  | String c rest =>
      if isUpper c
      then String (Ascii.ascii_of_nat 32) (String c (spaceCapitals rest))
      else String c (spaceCapitals rest)
  end.

(** [.replace(/^./, (str) => str.toUpperCase())]: the first character,
    if there is one, is put in upper case (a line terminator, which the
    dot does not match, is its own upper case). *)
Definition capitalizeFirst (s : string) : string :=
  match s with
  | EmptyString => EmptyString
  | String c rest => String (toUpperCase c) rest
  end.

(** Lines 114-118.  Strings are taken byte by byte: the model is the
    function itself on ASCII strings, as all field names are; the upper
    case of a first character outside ASCII is not modelled. *)
Definition formatFieldName (field : string) : string :=
  capitalizeFirst (spaceCapitals field).

(** All characters of the string are ASCII. *)
Fixpoint asciiOnly (s : string) : Prop :=
  match s with
  | EmptyString => True
  | String c rest => (Ascii.nat_of_ascii c < 128)%nat ∧ asciiOnly rest
  end.

(** The number of capitals of a string. *)
Fixpoint capitals (s : string) : nat :=
  match s with
  | EmptyString => 0
  | String c rest => (if isUpper c then 1 else 0) + capitals rest
  end.

(** Line 47. *)
Definition delta (s : state) : Z := currentStep s - previousStep s.

(** The horizontal offset a panel starts its entrance from (lines 174,
    257, 380 and 423). *)
Definition initialX (s : state) : string :=
  if 0 <=? delta s then "50%" else "-50%".

(** The three looks of an item of the progress bar (lines 140-164). *)
Inductive navLook : Type := Completed | Current | Upcoming.

Definition navItem (s : state) (index : Z) : navLook :=
  if index <? currentStep s then Completed
  else if currentStep s =? index then Current
  else Upcoming.

(** Lines 136-168: one item per step, in order. *)
Definition progressBar (s : state) : list navLook :=
  imap (λ index _, navItem s (Z.of_nat index)) steps.

(** Lines 119-123, in the order [Object.entries] lists them. *)
Definition sections : list (string * list string) :=
  [ ("Personal Information", ["firstName"; "lastName"; "email"]);
    ("Address Details", ["country"; "state"; "city"; "street"; "zip"]);
    ("Preferences", ["joinNewsletter"; "enableNotification"]) ].

(** Lines 435-455: the review lists each section with, for each of its
    fields, the label of the field and the recorded value as text. *)
Definition reviewRows (s : state) : list (string * list (string * string)) :=
  map (λ sec, (sec.1,
               map (λ field, (formatFieldName field,
                              formatValue (prop (formData s) field)))
                   sec.2))
      sections.

Section Review.
Context {lib : Zod}.

(** What the review shows for a recorded value that passes, by shape of
    the field. *)
Definition shownAs (s : state) (field shown : string) : Prop :=
  match shapeOf field with
  | Some (ZStringMin n _) =>
      ∃ str, formData s !! field = Some (VString str) ∧
             (n ≤ String.length str)%nat ∧ (n ≠ 0%nat → shown = str)
  | Some (ZStringEmail _) =>
      ∃ str, formData s !! field = Some (VString str) ∧
             isEmail str = true ∧ shown = formatValue (VString str)
  | Some ZBooleanOptional =>
      (formData s !! field = None ∧ shown = "Not provided") ∨
      ∃ b, formData s !! field = Some (VBoolean b) ∧
           shown = (if b then "Yes" else "No")
  | None => False
  end.

End Review.

(** What holds between the recorded data and the inputs in the states
    the form as rendered can reach. *)
Record Synced (s : state) : Prop := {
  sy_recorded : ∀ j f, 0 ≤ j < currentStep s → f ∈ ownedFields j →
                       prop (formValues s) f ≠ VUndefined →
                       formData s !! f = Some (prop (formValues s) f);
  sy_loaded : ∀ k v, formData s !! k = Some v →
                     k ∉ inputsAt (currentStep s) →
                     formValues s !! k = Some v;
  sy_inputs : ∀ f, prop (formValues s) f ≠ VUndefined →
                   ∃ j, f ∈ ownedFields j;
  sy_keys : ∀ f v, formData s !! f = Some v → ∃ j, f ∈ ownedFields j;
  sy_errors : currentStep s = stepCount - 1 → errors s = ∅
}.

(** Valid entries for the inputs of a step, given an email address. *)
Definition fillStep (email : string) (i : Z) : list event :=
  if i =? 0 then
    [ Edit "firstName" (VString "x"); Edit "lastName" (VString "x");
      Edit "email" (VString email) ]
  else if i =? 1 then
    [ Edit "country" (VString "x"); Edit "state" (VString "x");
      Edit "city" (VString "x"); Edit "street" (VString "x");
      Edit "zip" (VString "x") ]
  else if i =? 2 then
    [ Edit "joinNewsletter" (VBoolean false);
      Edit "enableNotification" (VBoolean false) ]
  else [].

(** Filling in and validating each of the [n] steps from step [i] on. *)
Fixpoint completeFrom (email : string) (i : Z) (n : nat) : list event :=
  match n with
  | O => []
  | S n' => fillStep email i ++ [Advance] ++ completeFrom email (i + 1) n'
  end.

(** ** Registration of the mounted inputs *)

(** The inputs that are checkboxes (lines 396-413); all others are text
    inputs (lines 194-365). *)
Definition checkboxes : list string := ["joinNewsletter"; "enableNotification"].

(** What the control of an input holds before the user touches it: a
    text input is empty, a checkbox is not checked. *)
Definition controlValue (f : string) : value :=
  if decide (f ∈ checkboxes) then VBoolean false else VString "".

(** Modelled from the spec: what the form library does when the inputs
    of a step are mounted with [register] (lines 197-413; section 6 of
    the spec: values come from standard form controls): an input the
    store holds no value for gets the value of its control, the others
    keep theirs. *)
Definition registerInputs (s : state) : state :=
  foldl (λ acc f,
           if decide (prop (formValues acc) f = VUndefined)
           then setValue f (controlValue f) acc
           else acc)
        s (inputsAt (currentStep s)).

(** The registrations of a state, as changes of inputs. *)
Definition registrations (s : state) : list event :=
  (λ f, Edit f (controlValue f))
    <$> filter (λ f, prop (formValues s) f = VUndefined)
               (inputsAt (currentStep s)).

(** The state once the first step is mounted; the effect of lines
    130-132 then loads an empty [formData]. *)
Definition mountedInit : state := registerInputs init.

(** A render in which [currentStep] has changed mounts the inputs of
    the new step, which registers them, before the effect of lines
    130-132 runs. *)
Definition rerenderMounted (old new : state) : state :=
  if currentStep old =? currentStep new then new
  else loadStepData (registerInputs new).

Section Mounted.
Context {lib : Zod}.

(** The actions, with the registration of the inputs they mount. *)
Definition fireMounted (e : event) (s : state) : state :=
  match e with
  | Advance =>
      match next s with Some s' => rerenderMounted s s' | None => s end
  | Retreat => rerenderMounted s (prev s)
  | Edit f v => setValue f v s
  | Submit => handleSubmit processForm s
  end.

Fixpoint runMounted (t : list event) (s : state) : state :=
  match t with
  | [] => s
  | e :: t' => runMounted t' (fireMounted e s)
  end.

Fixpoint offeredAllMounted (t : list event) (s : state) : bool :=
  match t with
  | [] => true
  | e :: t' => offered s e && offeredAllMounted t' (fireMounted e s)
  end.

(** C10 as it is worded: a field the user never touched contributes no
    key to [formData]. *)
Definition untouchedLeavesNoKey (t : list event) (f : string) : Prop :=
  untouched f t → formData (runMounted t mountedInit) !! f = None.

(** What holds of a checkbox the user never touches. *)
Record Unchecked (f : string) (s : state) : Prop := {
  un_input : prop (formValues s) f = VUndefined ∨
             prop (formValues s) f = VBoolean false;
  un_data : formData s !! f = None ∨ formData s !! f = Some (VBoolean false);
  un_mounted : 2 ≤ currentStep s → prop (formValues s) f = VBoolean false;
  un_review : currentStep s = stepCount - 1 →
              formData s !! f = Some (VBoolean false)
}.

End Mounted.

(** The first step as mounted, filled in after a first, rejected,
    attempt to go on. *)
Definition personalRetried : state :=
  runMounted (lib := sampleZod) ([Advance] ++ fillPersonal) mountedInit.

(** The whole traversal with the registrations written out as changes
    of inputs. *)
Definition traversalRegistered : list event :=
  [ Edit "firstName" (VString ""); Edit "lastName" (VString "");
    Edit "email" (VString "") ] ++ fillPersonal ++ [Advance] ++
  [ Edit "country" (VString ""); Edit "state" (VString "");
    Edit "city" (VString ""); Edit "street" (VString "");
    Edit "zip" (VString "") ] ++ fillAddress ++ [Advance] ++
  [ Edit "joinNewsletter" (VBoolean false);
    Edit "enableNotification" (VBoolean false) ] ++
  [ Edit "joinNewsletter" (VBoolean true); Advance ].

(** * Properties *)

(** Membership in a literal list, as a disjunction of equalities. *)
Ltac split_cons :=
  repeat match goal with
         | H : context [_ ∈ _ :: _] |- _ => rewrite elem_of_cons in H
         | H : context [_ ∈ []] |- _ => rewrite elem_of_nil in H
         | |- context [_ ∈ _ :: _] => rewrite elem_of_cons
         | |- context [_ ∈ []] => rewrite elem_of_nil
         end.

Section Properties.
Context {lib : Zod}.

(** ** Objects *)

Lemma prop_lookup (o : object) k v : o !! k = Some v → prop o k = v.
Proof. unfold prop. by intros ->. Qed.

Lemma elem_of_keys (o : object) k : k ∈ keys o ↔ is_Some (o !! k).
Proof.
  unfold keys. rewrite list_elem_of_fmap. split.
  - intros [[k' v] [-> Hin]]. apply elem_of_map_to_list in Hin. by exists v.
  - intros [v Hv]. exists (k, v). split; [done|]. by apply elem_of_map_to_list.
Qed.

Lemma lookup_spread (a b : object) k :
  spread a b !! k = match b !! k with Some v => Some v | None => a !! k end.
Proof.
  unfold spread. rewrite lookup_union. destruct (b !! k), (a !! k); done.
Qed.

(** ** The resolver *)

Lemma resolve_lookup_notin schema values f :
  f ∉ schema.*1 → resolve schema values !! f = None.
Proof.
  induction schema as [|[g t] rest IH]; simpl; intros Hnot; [done|].
  apply not_elem_of_cons in Hnot as [Hne Hrest].
  destruct (safeParseField t (prop values g)).
  - rewrite lookup_insert_ne; auto.
  - auto.
Qed.

Lemma resolve_lookup schema values f :
  NoDup schema.*1 →
  resolve schema values !! f =
    match shapeIn schema f with
    | Some t => safeParseField t (prop values f)
    | None => None
    end.
Proof.
  induction schema as [|[g t] rest IH]; simpl; intros Hnd; [done|].
  apply NoDup_cons in Hnd as [Hnot Hnd].
  destruct (decide (g = f)) as [->|Hne].
  - destruct (safeParseField t (prop values f)) eqn:E.
    + by rewrite lookup_insert_eq.
    + by apply resolve_lookup_notin.
  - destruct (safeParseField t (prop values g)).
    + rewrite lookup_insert_ne; auto.
    + auto.
Qed.

Lemma schema_NoDup : NoDup FormDataSchema.*1.
Proof. refine (bool_decide_unpack _ _). by vm_compute. Qed.

Lemma zodResolver_lookup values f :
  zodResolver values !! f = fieldError f (prop values f).
Proof. unfold zodResolver, fieldError, shapeOf. apply resolve_lookup, schema_NoDup. Qed.

Lemma zodResolver_empty values :
  dom (zodResolver values) = ∅ ↔ ∀ f, fieldError f (prop values f) = None.
Proof.
  rewrite dom_empty_iff_L. split.
  - intros Hempty f. by rewrite <- zodResolver_lookup, Hempty.
  - intros Hall. apply map_eq. intros f.
    by rewrite zodResolver_lookup, Hall, lookup_empty.
Qed.

(** ** [trigger] *)

Lemma trigger_errors_fold (found errs : gmap string string) ns n :
  foldl (λ errs n,
           match found !! n with
           | Some e => <[n := e]> errs
           | None => delete n errs
           end) errs ns !! n
  = if decide (n ∈ ns) then found !! n else errs !! n.
Proof.
  revert errs. induction ns as [|a ns IH]; intros errs; cbn [foldl].
  - rewrite decide_False; [done|]. apply not_elem_of_nil.
  - rewrite IH. destruct (decide (n ∈ ns)) as [Hin|Hnot].
    + rewrite decide_True; [done|]. by apply list_elem_of_further.
    + destruct (decide (n = a)) as [->|Hne].
      * rewrite decide_True; [|by apply list_elem_of_here].
        destruct (found !! a) eqn:E;
          [by rewrite lookup_insert_eq | by rewrite lookup_delete_eq].
      * rewrite decide_False; [|by apply not_elem_of_cons].
        destruct (found !! a);
          [by rewrite lookup_insert_ne | by rewrite lookup_delete_ne].
Qed.

Lemma trigger_frame names s :
  let s' := (trigger names s).2 in
  previousStep s' = previousStep s ∧ currentStep s' = currentStep s ∧
  isSubmitted s' = isSubmitted s ∧ formData s' = formData s ∧
  formValues s' = formValues s ∧ calls s' = calls s ++ [CTrigger names].
Proof. unfold trigger. by destruct names. Qed.

Lemma trigger_some_output ns s :
  (trigger (Some ns) s).1 = true ↔
  ∀ n, n ∈ ns → fieldError n (prop (formValues s) n) = None.
Proof.
  unfold trigger, getValues. cbn [fst].
  rewrite <- Is_true_true, forallb_True, Forall_forall.
  split; intros H n Hn.
  - specialize (H n Hn). apply bool_decide_unpack in H.
    by rewrite <- zodResolver_lookup.
  - apply bool_decide_pack. rewrite zodResolver_lookup. auto.
Qed.

Lemma trigger_none_output s :
  (trigger None s).1 = true ↔
  ∀ f, fieldError f (prop (formValues s) f) = None.
Proof.
  unfold trigger, getValues. simpl. rewrite bool_decide_eq_true.
  apply zodResolver_empty.
Qed.

Lemma trigger_some_errors ns s n :
  errors (trigger (Some ns) s).2 !! n =
    if decide (n ∈ ns) then fieldError n (prop (formValues s) n)
    else errors s !! n.
Proof.
  unfold trigger, getValues. simpl. rewrite trigger_errors_fold.
  by rewrite zodResolver_lookup.
Qed.

Lemma trigger_none_errors s n :
  errors (trigger None s).2 !! n = fieldError n (prop (formValues s) n).
Proof. unfold trigger, getValues. simpl. apply zodResolver_lookup. Qed.

(** ** [saveStepData] *)

Lemma stepData_lookup (values acc : object) l f :
  foldl (λ acc field,
           let v := prop values field in
           if decide (v ≠ VUndefined) then <[field := v]> acc else acc)
        acc l !! f
  = if decide (f ∈ l ∧ prop values f ≠ VUndefined)
    then Some (prop values f) else acc !! f.
Proof.
  revert acc. induction l as [|a l IH]; intros acc; cbn [foldl].
  - rewrite decide_False; [done|]. intros [Hin _]. by apply not_elem_of_nil in Hin.
  - rewrite IH. cbn zeta.
    destruct (decide (f = a)) as [->|Hne];
      destruct (decide (prop values a ≠ VUndefined)) as [Hv|Hv];
      repeat case_decide;
      try rewrite lookup_insert_eq; try rewrite lookup_insert_ne by done;
      split_cons; intuition congruence.
Qed.

Lemma saveStepData_frame s :
  previousStep (saveStepData s) = previousStep s ∧
  currentStep (saveStepData s) = currentStep s ∧
  isSubmitted (saveStepData s) = isSubmitted s ∧
  formValues (saveStepData s) = formValues s ∧
  errors (saveStepData s) = errors s ∧
  calls (saveStepData s) = calls s.
Proof. done. Qed.

Lemma saveStepData_lookup s f :
  formData (saveStepData s) !! f =
    if decide (f ∈ ownedFields (currentStep s) ∧ prop (formValues s) f ≠ VUndefined)
    then Some (prop (formValues s) f)
    else formData s !! f.
Proof.
  unfold saveStepData, setFormData, getValues. cbn [formData].
  rewrite lookup_spread, stepData_lookup, lookup_empty.
  by destruct (decide _).
Qed.

(** ** [loadStepData] *)

Lemma loadStepData_fold (fd : object) l s :
  let s' := foldl (λ acc field, setValue field (prop fd field) acc) s l in
  previousStep s' = previousStep s ∧ currentStep s' = currentStep s ∧
  isSubmitted s' = isSubmitted s ∧ formData s' = formData s ∧
  errors s' = errors s ∧ calls s' = calls s ∧
  ∀ f, formValues s' !! f =
         if decide (f ∈ l) then Some (prop fd f) else formValues s !! f.
Proof.
  revert s. induction l as [|a l IH]; intros s; cbn [foldl].
  - done.
  - destruct (IH (setValue a (prop fd a) s)) as (-> & -> & -> & -> & -> & -> & Hv).
    split_and!; [done..|]. intros f. rewrite Hv. cbn [setValue formValues].
    destruct (decide (f ∈ l)) as [Hin|Hnot].
    + rewrite decide_True; [done|by apply list_elem_of_further].
    + destruct (decide (f = a)) as [->|Hne].
      * rewrite decide_True; [|by apply list_elem_of_here].
        by rewrite lookup_insert_eq.
      * rewrite decide_False; [|by apply not_elem_of_cons].
        by rewrite lookup_insert_ne.
Qed.

Lemma loadStepData_frame s :
  previousStep (loadStepData s) = previousStep s ∧
  currentStep (loadStepData s) = currentStep s ∧
  isSubmitted (loadStepData s) = isSubmitted s ∧
  formData (loadStepData s) = formData s ∧
  errors (loadStepData s) = errors s ∧
  calls (loadStepData s) = calls s.
Proof.
  destruct (loadStepData_fold (formData s) (keys (formData s)) s)
    as (? & ? & ? & ? & ? & ? & _).
  by unfold loadStepData.
Qed.

Lemma loadStepData_lookup s f :
  formValues (loadStepData s) !! f =
    match formData s !! f with
    | Some v => Some v
    | None => formValues s !! f
    end.
Proof.
  destruct (loadStepData_fold (formData s) (keys (formData s)) s)
    as (_ & _ & _ & _ & _ & _ & Hv).
  unfold loadStepData. rewrite Hv.
  destruct (formData s !! f) as [v|] eqn:E.
  - rewrite decide_True; [|apply elem_of_keys; eauto].
    by rewrite (prop_lookup _ _ _ E).
  - rewrite decide_False; [done|]. rewrite elem_of_keys, E. by intros [? ?].
Qed.

Lemma rerender_frame old new :
  previousStep (rerender old new) = previousStep new ∧
  currentStep (rerender old new) = currentStep new ∧
  isSubmitted (rerender old new) = isSubmitted new ∧
  formData (rerender old new) = formData new ∧
  errors (rerender old new) = errors new ∧
  calls (rerender old new) = calls new.
Proof.
  unfold rerender. destruct (_ =? _); [done|apply loadStepData_frame].
Qed.

(** ** [handleSubmit] *)

Lemma handleSubmit_frame s :
  let s' := handleSubmit processForm s in
  previousStep s' = previousStep s ∧ currentStep s' = currentStep s ∧
  formData s' = formData s ∧ formValues s' = formValues s ∧
  errors s' = zodResolver (formValues s).
Proof. unfold handleSubmit. by destruct (bool_decide _). Qed.

Lemma handleSubmit_valid s :
  (∀ f, fieldError f (prop (formValues s) f) = None) →
  isSubmitted (handleSubmit processForm s) = true ∧
  calls (handleSubmit processForm s) = calls s ++ [CHandleSubmit; CProcessForm].
Proof.
  intros Hall. unfold handleSubmit.
  rewrite bool_decide_eq_true_2 by by apply zodResolver_empty.
  cbn. by rewrite <- app_assoc.
Qed.


Lemma handleSubmit_mono s :
  isSubmitted s = true → isSubmitted (handleSubmit processForm s) = true.
Proof. intros H. unfold handleSubmit. by destruct (bool_decide _). Qed.

(** ** The step table *)

Lemma stepAt_Some i st :
  stepAt i = Some st ↔
  (i = 0 ∧ st = StepDef "Step 1" "Personal Information"
                    (Some ["firstName"; "lastName"; "email"])) ∨
  (i = 1 ∧ st = StepDef "Step 2" "Address Details"
                    (Some ["country"; "state"; "city"; "street"; "zip"])) ∨
  (i = 2 ∧ st = StepDef "Step 3" "Preferences"
                    (Some ["joinNewsletter"; "enableNotification"])) ∨
  (i = 3 ∧ st = StepDef "Step 4" "Review & Submit" None).
Proof.
  unfold stepAt. split.
  - destruct (Z.ltb_spec i 0) as [|Hle]; [done|].
    intros H.
    assert (Hlt : (Z.to_nat i < 4)%nat) by (apply lookup_lt_Some in H; exact H).
    assert (Hcase : i = 0 ∨ i = 1 ∨ i = 2 ∨ i = 3) by lia.
    destruct Hcase as [-> | [-> | [-> | ->] ] ]; cbn in H; inversion H; auto 6.
  - intros [[-> ->] | [[-> ->] | [[-> ->] | [-> ->] ] ] ]; done.
Qed.

Lemma stepAt_is_Some i : is_Some (stepAt i) ↔ 0 ≤ i ≤ stepCount - 1.
Proof.
  unfold stepAt, stepCount. destruct (Z.ltb_spec i 0) as [Hlt|Hle].
  - split; [by intros [? ?]|lia].
  - rewrite lookup_lt_is_Some. lia.
Qed.

Lemma ownedFields_inputsAt i : ownedFields i = inputsAt i.
Proof.
  unfold ownedFields. destruct (stepAt i) as [st|] eqn:E.
  - apply stepAt_Some in E as [[-> ->] | [[-> ->] | [[-> ->] | [-> ->] ] ] ]; done.
  - unfold inputsAt.
    assert (Hout : ¬ (0 ≤ i ≤ stepCount - 1)).
    { rewrite <- stepAt_is_Some, E. by intros [? ?]. }
    unfold stepCount in Hout. cbn in Hout.
    destruct (Z.eqb_spec i 0); [lia|].
    destruct (Z.eqb_spec i 1); [lia|].
    destruct (Z.eqb_spec i 2); [lia|done].
Qed.

(** ** [next] *)

Lemma next_unfold s st :
  stepAt (currentStep s) = Some st →
  next s = Some
    (let r := trigger (fields st) s in
     if negb r.1 then r.2
     else
       let s2 := saveStepData r.2 in
       if currentStep s <? stepCount - 1 then
         setCurrentStep (λ step, step + 1)
           (setPreviousStep (currentStep s)
              (if currentStep s =? stepCount - 2
               then handleSubmit processForm s2 else s2))
       else s2).
Proof.
  intros Hst. unfold next. rewrite Hst.
  destruct (trigger (fields st) s) as [output s1]. cbn [fst snd].
  destruct (negb output); [done|]. cbn zeta.
  by destruct (currentStep s <? stepCount - 1).
Qed.

Lemma next_is_Some s : is_Some (next s) ↔ 0 ≤ currentStep s ≤ stepCount - 1.
Proof.
  rewrite <- stepAt_is_Some. split.
  - intros [s' Hs']. unfold next in Hs'.
    destruct (stepAt (currentStep s)); [by eexists|done].
  - intros [st Hst]. rewrite (next_unfold _ _ Hst). by eexists.
Qed.

Lemma next_blocked s st :
  stepAt (currentStep s) = Some st →
  (trigger (fields st) s).1 = false →
  next s = Some (trigger (fields st) s).2.
Proof.
  intros Hst Hout. rewrite (next_unfold _ _ Hst). cbn zeta. by rewrite Hout.
Qed.

Lemma ownedFields_fields i st f :
  stepAt i = Some st → f ∈ ownedFields i → fields st = Some (ownedFields i).
Proof.
  intros Hst. unfold ownedFields. rewrite Hst.
  destruct (fields st); cbn; [done|]. by intros ?%elem_of_nil.
Qed.

Lemma ownedFields_None i st :
  stepAt i = Some st → fields st = None → ownedFields i = [].
Proof. intros Hst Hf. unfold ownedFields. by rewrite Hst, Hf. Qed.

(** A failing field of the current step stops [next]: only the errors
    (and the record of calls) change, and the field gets its message. *)
Lemma next_rejects s st f msg :
  stepAt (currentStep s) = Some st →
  f ∈ ownedFields (currentStep s) →
  fieldError f (prop (formValues s) f) = Some msg →
  ∃ s', next s = Some s' ∧
        previousStep s' = previousStep s ∧ currentStep s' = currentStep s ∧
        isSubmitted s' = isSubmitted s ∧ formData s' = formData s ∧
        formValues s' = formValues s ∧ errors s' !! f = Some msg.
Proof.
  intros Hst Hin Herr.
  pose proof (ownedFields_fields _ _ _ Hst Hin) as Hfields.
  assert (Hout : (trigger (fields st) s).1 = false).
  { rewrite Hfields. apply not_true_is_false. rewrite trigger_some_output.
    intros Hall. specialize (Hall f Hin). congruence. }
  exists (trigger (fields st) s).2. split; [by apply next_blocked|].
  destruct (trigger_frame (fields st) s) as (? & ? & ? & ? & ? & _).
  split_and!; try done.
  rewrite Hfields, trigger_some_errors. by rewrite decide_True.
Qed.

(** When the validation of the current step passes, [next] merges the
    step's fields and moves on, except on the last step. *)
Lemma next_passes s st :
  stepAt (currentStep s) = Some st →
  (trigger (fields st) s).1 = true →
  ∃ s', next s = Some s' ∧
        currentStep s' =
          (if decide (currentStep s = stepCount - 1)
           then currentStep s else currentStep s + 1) ∧
        formValues s' = formValues s ∧
        ∀ f, formData s' !! f =
               if decide (f ∈ ownedFields (currentStep s)
                          ∧ prop (formValues s) f ≠ VUndefined)
               then Some (prop (formValues s) f)
               else formData s !! f.
Proof.
  intros Hst Hout. eexists. split; [by apply next_unfold|].
  cbn zeta. rewrite Hout. cbn [negb].
  destruct (trigger_frame (fields st) s) as (_ & Hcur & _ & Hfd & Hfv & _).
  cbn zeta in *.
  set (s1 := (trigger (fields st) s).2) in *.
  assert (Hsave : ∀ f, formData (saveStepData s1) !! f =
          if decide (f ∈ ownedFields (currentStep s)
                     ∧ prop (formValues s) f ≠ VUndefined)
          then Some (prop (formValues s) f)
          else formData s !! f).
  { intros f. by rewrite saveStepData_lookup, Hcur, Hfv, Hfd. }
  assert (Hrange : 0 ≤ currentStep s ≤ stepCount - 1).
  { apply stepAt_is_Some. by eexists. }
  destruct (handleSubmit_frame (saveStepData s1)) as (_ & Hcur' & Hfd' & Hfv' & _).
  destruct (saveStepData_frame s1) as (_ & Hc2 & _ & Hv2 & _).
  cbn zeta in *.
  destruct (Z.ltb_spec (currentStep s) (stepCount - 1)).
  - rewrite decide_False by lia.
    destruct (currentStep s =? stepCount - 2);
      cbn [setCurrentStep setPreviousStep currentStep formData formValues].
    + rewrite Hcur', Hfd', Hfv', Hc2, Hv2, Hcur, Hfv. by split_and!.
    + rewrite Hc2, Hv2, Hcur, Hfv. by split_and!.
  - rewrite decide_True by lia. rewrite Hc2, Hv2, Hcur, Hfv. by split_and!.
Qed.

(** ** Claims about single operations *)

(** C1. For every step whose fields all validate against the schema, a
    call to [next] increments the current step index by exactly one,
    unless the index is already the last one, in which case it keeps it;
    and it merges exactly that step's fields into [formData]: each field
    the step owns gets its current value (a field whose current value is
    [undefined] is passed over), every other key is as before. *)
Theorem advance_valid_step (s : state) (st : stepDef) :
  stepAt (currentStep s) = Some st →
  (∀ f, f ∈ ownedFields (currentStep s) →
        fieldError f (prop (formValues s) f) = None) →
  ∃ s', next s = Some s' ∧
        currentStep s' =
          (if decide (currentStep s = stepCount - 1)
           then currentStep s else currentStep s + 1) ∧
        ∀ f, formData s' !! f =
               if decide (f ∈ ownedFields (currentStep s)
                          ∧ prop (formValues s) f ≠ VUndefined)
               then Some (prop (formValues s) f)
               else formData s !! f.
Proof.
  intros Hst Hvalid.
  destruct ((trigger (fields st) s).1) eqn:Hout.
  - destruct (next_passes _ _ Hst Hout) as (s' & ? & ? & _ & ?). by exists s'.
  - (* only the review step, which owns no field, can fail here *)
    destruct (fields st) as [ns|] eqn:Hfields.
    + assert (ownedFields (currentStep s) = ns) as Hns.
      { unfold ownedFields. by rewrite Hst, Hfields. }
      rewrite Hns in Hvalid. apply trigger_some_output in Hvalid. congruence.
    + rewrite <- Hfields in Hout.
      exists (trigger (fields st) s).2. split; [by apply next_blocked|].
      destruct (trigger_frame (fields st) s) as (_ & -> & _ & -> & _).
      rewrite (ownedFields_None _ _ Hst Hfields).
      apply stepAt_Some in Hst as [[Hi ->] | [[Hi ->] | [[Hi ->] | [Hi ->] ] ] ];
        [done..|].
      split; [by rewrite Hi|].
      intros f. rewrite decide_False; [done|]. by intros [?%elem_of_nil _].
Qed.

(** C2. For every step and every input state in which some field of that
    step fails its check (a required field left empty, or any invalid
    value), [next] leaves the current step index and [formData] unchanged
    (as well as the previous index, the submitted flag and the inputs)
    and reports errors that include the message for that field. *)
Theorem advance_invalid_step (s : state) (st : stepDef) (f msg : string) :
  stepAt (currentStep s) = Some st →
  f ∈ ownedFields (currentStep s) →
  fieldError f (prop (formValues s) f) = Some msg →
  ∃ s', next s = Some s' ∧
        currentStep s' = currentStep s ∧ formData s' = formData s ∧
        previousStep s' = previousStep s ∧ isSubmitted s' = isSubmitted s ∧
        formValues s' = formValues s ∧
        errors s' !! f = Some msg ∧ errors s' ≠ ∅.
Proof.
  intros Hst Hin Herr.
  destruct (next_rejects _ _ _ _ Hst Hin Herr)
    as (s' & Hnext & ? & ? & ? & ? & ? & Hmsg).
  exists s'. split_and!; try done.
  intros Hempty. by rewrite Hempty, lookup_empty in Hmsg.
Qed.

(** C6. From an index [i > 0], [prev] sets the index to [i - 1], runs no
    validation (the errors are as before and the only calls are the two
    state setters) and leaves [formData] exactly as it was, also once the
    effect of the re-render has run; from index 0 nothing changes. *)
Theorem retreat_frame (s : state) :
  (0 < currentStep s →
     currentStep (prev s) = currentStep s - 1 ∧
     previousStep (prev s) = currentStep s ∧
     formData (prev s) = formData s ∧
     errors (prev s) = errors s ∧
     isSubmitted (prev s) = isSubmitted s ∧
     calls (prev s) =
       calls s ++ [CSetPreviousStep (currentStep s);
                   CSetCurrentStep (currentStep s - 1)] ∧
     currentStep (fire Retreat s) = currentStep s - 1 ∧
     formData (fire Retreat s) = formData s ∧
     errors (fire Retreat s) = errors s) ∧
  (currentStep s = 0 → prev s = s ∧ fire Retreat s = s).
Proof.
  split.
  - intros Hpos. unfold fire.
    destruct (rerender_frame s (prev s)) as (_ & -> & _ & -> & -> & _).
    unfold prev. rewrite (proj2 (Z.ltb_lt _ _) Hpos).
    cbn [setCurrentStep setPreviousStep currentStep previousStep formData
         errors isSubmitted calls].
    split_and!; try done. by rewrite <- app_assoc.
  - intros Hzero. unfold fire, rerender, prev. rewrite Hzero. cbn.
    by rewrite Hzero.
Qed.

(** C9. With [firstName] equal to the empty string, [next] at step 0
    leaves the index at 0 and reports "First name is required" for
    [firstName]; with [email] equal to "bad", a string the email test of
    the schema library rejects, it reports "Invalid email address" for
    [email] (and the index stays at 0 as well). *)
Theorem advance_messages (s : state) :
  currentStep s = 0 →
  (prop (formValues s) "firstName" = VString "" →
     ∃ s', next s = Some s' ∧ currentStep s' = 0 ∧
           errors s' !! "firstName" = Some "First name is required") ∧
  (prop (formValues s) "email" = VString "bad" → isEmail "bad" = false →
     ∃ s', next s = Some s' ∧ currentStep s' = 0 ∧
           errors s' !! "email" = Some "Invalid email address").
Proof.
  intros Hzero.
  assert (is_Some (stepAt (currentStep s))) as [st Hst] by by rewrite Hzero.
  split.
  - intros Hval.
    destruct (next_rejects s st "firstName" "First name is required" Hst)
      as (s' & ? & _ & ? & _ & _ & _ & ?).
    + rewrite Hzero. cbn. set_solver.
    + by rewrite Hval.
    + exists s'. split_and!; congruence.
  - intros Hval Hbad.
    destruct (next_rejects s st "email" "Invalid email address" Hst)
      as (s' & ? & _ & ? & _ & _ & _ & ?).
    + rewrite Hzero. cbn. set_solver.
    + rewrite Hval. unfold fieldError.
      replace (shapeOf "email")
        with (Some (ZStringEmail "Invalid email address")) by by vm_compute.
      cbn [safeParseField]. by rewrite Hbad.
    + exists s'. split_and!; congruence.
Qed.

(** C7, as the code has it.  [loadStepData] copies into the inputs the
    value of every field recorded in [formData], whichever step owns it
    (so in particular every recorded field of the step being entered),
    and leaves every field that was never recorded, and the rest of the
    state, as it was; the effect runs it whenever the index has
    changed. *)
Theorem loadStepData_prefills (s : state) :
  (∀ f, formValues (loadStepData s) !! f =
          match formData s !! f with
          | Some v => Some v
          | None => formValues s !! f
          end) ∧
  currentStep (loadStepData s) = currentStep s ∧
  formData (loadStepData s) = formData s ∧
  ∀ old, currentStep old ≠ currentStep s → rerender old s = loadStepData s.
Proof.
  destruct (loadStepData_frame s) as (_ & ? & _ & ? & _).
  split_and!; try done.
  - apply loadStepData_lookup.
  - intros old Hne. unfold rerender. by rewrite (proj2 (Z.eqb_neq _ _) Hne).
Qed.

(** ** Actions *)

Lemma trigger_pass_owned s st :
  stepAt (currentStep s) = Some st →
  (trigger (fields st) s).1 = true →
  ∀ f, f ∈ ownedFields (currentStep s) →
       fieldError f (prop (formValues s) f) = None.
Proof.
  intros Hst Hout f Hin.
  rewrite (ownedFields_fields _ _ _ Hst Hin) in Hout.
  by apply (proj1 (trigger_some_output _ _) Hout).
Qed.

(** The two ways [next] can end. *)
Lemma next_cases s s' :
  next s = Some s' →
  ∃ st, stepAt (currentStep s) = Some st ∧
        (((trigger (fields st) s).1 = false ∧ s' = (trigger (fields st) s).2) ∨
         (trigger (fields st) s).1 = true ∧
         currentStep s' =
           (if decide (currentStep s = stepCount - 1)
            then currentStep s else currentStep s + 1) ∧
         formValues s' = formValues s ∧
         ∀ f, formData s' !! f =
                if decide (f ∈ ownedFields (currentStep s)
                           ∧ prop (formValues s) f ≠ VUndefined)
                then Some (prop (formValues s) f)
                else formData s !! f).
Proof.
  intros Hnext.
  assert (is_Some (stepAt (currentStep s))) as [st Hst].
  { apply stepAt_is_Some, next_is_Some. by eexists. }
  exists st. split; [done|]. destruct ((trigger (fields st) s).1) eqn:Hout.
  - right. destruct (next_passes _ _ Hst Hout) as (s'' & Hs'' & ?).
    assert (s'' = s') as -> by congruence. done.
  - left. rewrite (next_blocked _ _ Hst Hout) in Hnext. split; [done|].
    congruence.
Qed.

Lemma fire_range e s :
  0 ≤ currentStep s ≤ stepCount - 1 →
  0 ≤ currentStep (fire e s) ≤ stepCount - 1.
Proof.
  intros Hrange. destruct e as [| |f v|]; cbn [fire].
  - destruct (next s) as [s'|] eqn:Hnext; [|done].
    destruct (rerender_frame s s') as (_ & -> & _).
    destruct (next_cases _ _ Hnext) as (st & Hst & [[_ ->]|(_ & -> & _)]).
    + by destruct (trigger_frame (fields st) s) as (_ & -> & _).
    + case_decide; lia.
  - destruct (rerender_frame s (prev s)) as (_ & -> & _).
    unfold prev. destruct (Z.ltb_spec 0 (currentStep s)); cbn; lia.
  - done.
  - by destruct (handleSubmit_frame s) as (_ & -> & _).
Qed.

Lemma run_range t s :
  0 ≤ currentStep s ≤ stepCount - 1 →
  0 ≤ currentStep (run t s) ≤ stepCount - 1.
Proof.
  revert s. induction t as [|e t IH]; intros s Hrange; cbn [run]; [done|].
  by apply IH, fire_range.
Qed.

(** What an action does to a key of [formData]: nothing, unless the
    action is [Advance], the current step owns the key and its input
    holds a value, which is then recorded. *)
Lemma fire_formData e s f :
  formData (fire e s) !! f = formData s !! f ∨
  (e = Advance ∧ f ∈ ownedFields (currentStep s) ∧
   prop (formValues s) f ≠ VUndefined ∧
   formData (fire e s) !! f = Some (prop (formValues s) f)).
Proof.
  destruct e as [| |g v|]; cbn [fire].
  - destruct (next s) as [s'|] eqn:Hnext; [|by left].
    destruct (rerender_frame s s') as (_ & _ & _ & -> & _).
    destruct (next_cases _ _ Hnext) as (st & Hst & [[_ ->]|(_ & _ & _ & Hfd)]).
    + left. by destruct (trigger_frame (fields st) s) as (_ & _ & _ & -> & _).
    + rewrite Hfd. case_decide as Hf; [right|by left]. by destruct Hf.
  - left. destruct (rerender_frame s (prev s)) as (_ & _ & _ & -> & _).
    unfold prev. by destruct (0 <? currentStep s).
  - by left.
  - left. by destruct (handleSubmit_frame s) as (_ & _ & -> & _).
Qed.

Lemma ownedFields_disjoint i j f :
  f ∈ ownedFields i → f ∈ ownedFields j → i = j.
Proof.
  rewrite !ownedFields_inputsAt. unfold inputsAt.
  destruct (Z.eqb_spec i 0), (Z.eqb_spec i 1), (Z.eqb_spec i 2),
           (Z.eqb_spec j 0), (Z.eqb_spec j 1), (Z.eqb_spec j 2);
    intros Hi Hj; try lia; split_cons; destruct_or!; try done; simplify_eq.
Qed.

Lemma fire_isSubmitted_mono e s :
  isSubmitted s = true → isSubmitted (fire e s) = true.
Proof.
  intros Hsub. destruct e as [| |g v|]; cbn [fire].
  - destruct (next s) as [s'|] eqn:Hnext; [|done].
    destruct (rerender_frame s s') as (_ & _ & -> & _).
    assert (is_Some (stepAt (currentStep s))) as [st Hst].
    { apply stepAt_is_Some, next_is_Some. by eexists. }
    rewrite (next_unfold _ _ Hst) in Hnext. injection Hnext as <-. cbn zeta.
    destruct (trigger_frame (fields st) s) as (_ & _ & Hs1 & _).
    cbn zeta in Hs1. rewrite <- Hs1 in Hsub.
    destruct (negb _); [done|].
    destruct (currentStep s <? stepCount - 1); [|done].
    destruct (currentStep s =? stepCount - 2); [|done].
    cbn [setCurrentStep setPreviousStep isSubmitted].
    by apply handleSubmit_mono.
  - destruct (rerender_frame s (prev s)) as (_ & _ & -> & _).
    unfold prev. by destruct (0 <? currentStep s).
  - done.
  - by apply handleSubmit_mono.
Qed.

(** ** Claims about every sequence of actions *)

(** C8. In every state reachable from the initial state, by any sequence
    of calls of [next] and [prev] (and of edits and submissions), the
    current step index lies in [0, stepCount - 1]. *)
Theorem index_in_range (t : list event) :
  0 ≤ currentStep (run t init) ≤ stepCount - 1.
Proof. by apply run_range. Qed.

(** C3. Along every sequence of actions, from any state, the set of keys
    of [formData] only grows; and the values recorded for the fields of a
    step [k] (in particular those of step 0) are present and unchanged as
    long as [next] is not called on step [k] again, whatever is advanced
    on other steps and however often the user goes back. *)
Theorem formData_monotone (t : list event) (s : state) :
  dom (formData s) ⊆ dom (formData (run t s)) ∧
  ∀ k, noAdvanceAt k t s →
       ∀ f, f ∈ ownedFields k → formData (run t s) !! f = formData s !! f.
Proof.
  revert s. induction t as [|e t IH]; intros s; cbn [run noAdvanceAt].
  - done.
  - destruct (IH (fire e s)) as [IHdom IHkeep]. split.
    + etrans; [|exact IHdom]. intros f. rewrite !elem_of_dom. intros Hf.
      destruct (fire_formData e s f) as [->|(_ & _ & _ & ->)]; [done|by eexists].
    + intros k [Hhead Htail] f Hin. rewrite (IHkeep k Htail f Hin).
      destruct (fire_formData e s f) as [->|(-> & Hown & _)]; [done|].
      exfalso. apply Hhead; [done|]. by apply (ownedFields_disjoint _ _ f).
Qed.

Lemma fire_noUndefined e s :
  noUndefined (formData s) → noUndefined (formData (fire e s)).
Proof.
  intros Hno f.
  destruct (fire_formData e s f) as [->|(_ & _ & Hdef & ->)]; [apply Hno|].
  congruence.
Qed.

Lemma saveStepData_noUndefined s :
  noUndefined (formData s) → noUndefined (formData (saveStepData s)).
Proof.
  intros Hno f. rewrite saveStepData_lookup.
  case_decide as Hf; [|apply Hno]. destruct Hf as [_ Hdef]. congruence.
Qed.

(** ** The invariant *)

Lemma schema_covered f t :
  shapeOf f = Some t →
  f ∈ ownedFields 0 ∨ f ∈ ownedFields 1 ∨ f ∈ ownedFields 2.
Proof.
  unfold shapeOf, FormDataSchema. cbn [shapeIn].
  repeat match goal with
         | |- context [decide (?g = f)] =>
             destruct (decide (g = f)) as [<-|?];
             [intros _; rewrite !ownedFields_inputsAt; cbn; split_cons; tauto|]
         end.
  done.
Qed.

Lemma prop_insert_ne (o : object) k k' v :
  k ≠ k' → prop (<[k := v]> o) k' = prop o k'.
Proof. intros Hne. unfold prop. by rewrite lookup_insert_ne. Qed.

Lemma rerender_valid old new f :
  validData (formData new) →
  fieldError f (prop (formValues new) f) = None →
  fieldError f (prop (formValues (rerender old new)) f) = None.
Proof.
  intros Hdata Hold. unfold rerender.
  destruct (currentStep old =? currentStep new); [done|].
  unfold prop. rewrite loadStepData_lookup.
  destruct (formData new !! f) as [v|] eqn:E; [by apply (Hdata f)|done].
Qed.

(** What a successful validation lets [next] do to the flag and to the
    record of calls, by position of the step. *)
Lemma next_pass_effects s st s' :
  stepAt (currentStep s) = Some st →
  (trigger (fields st) s).1 = true →
  next s = Some s' →
  (currentStep s = stepCount - 1 →
     isSubmitted s' = isSubmitted s ∧
     calls s' = calls s ++ [CTrigger (fields st)]) ∧
  (currentStep s < stepCount - 2 →
     isSubmitted s' = isSubmitted s ∧
     calls s' = calls s ++ [CTrigger (fields st);
                            CSetPreviousStep (currentStep s);
                            CSetCurrentStep (currentStep s + 1)]) ∧
  (currentStep s = stepCount - 2 →
     (∀ f, fieldError f (prop (formValues s) f) = None) →
     isSubmitted s' = true ∧
     calls s' = calls s ++ [CTrigger (fields st); CHandleSubmit; CProcessForm;
                            CSetPreviousStep (currentStep s);
                            CSetCurrentStep (currentStep s + 1)]).
Proof.
  intros Hst Hout Hnext.
  rewrite (next_unfold _ _ Hst) in Hnext. injection Hnext as <-.
  cbn zeta. rewrite Hout. cbn [negb].
  destruct (trigger_frame (fields st) s) as (_ & Hcur & Hsub & _ & Hfv & Hcalls).
  cbn zeta in *. set (s1 := (trigger (fields st) s).2) in *.
  split_and!.
  - intros Hlast. rewrite (proj2 (Z.ltb_ge _ _)) by lia.
    cbn [saveStepData setFormData isSubmitted calls]. by rewrite Hsub, Hcalls.
  - intros Hearly. rewrite (proj2 (Z.ltb_lt _ _)) by lia.
    rewrite (proj2 (Z.eqb_neq _ _)) by lia.
    cbn [setCurrentStep setPreviousStep saveStepData setFormData
         isSubmitted calls currentStep].
    rewrite Hsub, Hcalls, Hcur. by rewrite <- !app_assoc.
  - intros Hreview Hall. rewrite (proj2 (Z.ltb_lt _ _)) by lia.
    rewrite (proj2 (Z.eqb_eq _ _)) by lia.
    destruct (handleSubmit_valid (saveStepData s1)) as [Hflag Hlog].
    { intros f. cbn [saveStepData setFormData formValues]. rewrite Hfv. apply Hall. }
    destruct (handleSubmit_frame (saveStepData s1)) as (_ & Hcur' & _).
    cbn zeta in Hcur'.
    cbn [setCurrentStep setPreviousStep isSubmitted calls currentStep].
    rewrite Hflag, Hlog, Hcur'.
    cbn [saveStepData setFormData calls currentStep].
    rewrite Hcalls, Hcur. by rewrite <- !app_assoc.
Qed.

Lemma Inv_init : Inv init.
Proof.
  split; cbn.
  - done.
  - intros k v. by rewrite lookup_empty.
  - intros j f ?. lia.
  - done.
Qed.

(** On the step before the review, the fields of all earlier steps are
    valid by the invariant and those of the step itself by [trigger]:
    the whole schema passes. *)
Lemma all_valid_before_review s st :
  Inv s →
  stepAt (currentStep s) = Some st →
  (trigger (fields st) s).1 = true →
  currentStep s = stepCount - 2 →
  ∀ f, fieldError f (prop (formValues s) f) = None.
Proof.
  intros HI Hst Hout Hcur f.
  destruct (shapeOf f) as [t|] eqn:Hshape;
    [|by unfold fieldError; rewrite Hshape].
  pose proof (trigger_pass_owned _ _ Hst Hout) as Hown. rewrite Hcur in Hown.
  destruct (schema_covered _ _ Hshape) as [Hin|[Hin|Hin]].
  - apply (inv_passed _ HI 0); [rewrite Hcur; by cbn|done].
  - apply (inv_passed _ HI 1); [rewrite Hcur; by cbn|done].
  - by apply Hown.
Qed.

Lemma Inv_fire e s : Inv s → offered s e = true → Inv (fire e s).
Proof.
  intros HI Hoff. destruct HI as [Hrange Hdata Hpassed Hreview].
  destruct e as [| |g v|]; cbn [fire].
  - (* Advance *)
    destruct (next s) as [s'|] eqn:Hnext; [|by split].
    destruct (rerender_frame s s') as (_ & Hc & Hs & Hd & _).
    destruct (next_cases _ _ Hnext) as (st & Hst & [[Hout ->]|(Hout & Hcur & Hfv & Hfd)]).
    + destruct (trigger_frame (fields st) s) as (_ & Hc1 & Hs1 & Hd1 & Hv1 & _).
      cbn zeta in *.
      assert (Hdata1 : validData (formData (trigger (fields st) s).2))
        by by rewrite Hd1.
      split.
      * by rewrite Hc, Hc1.
      * by rewrite Hd.
      * intros j f Hj Hin. rewrite Hc, Hc1 in Hj.
        apply rerender_valid; [done|]. rewrite Hv1. by apply (Hpassed j).
      * rewrite Hc, Hc1, Hs, Hs1. done.
    + pose proof (trigger_pass_owned _ _ Hst Hout) as Hown.
      assert (Hdata' : validData (formData s')).
      { intros k w. rewrite Hfd.
        destruct (decide (_ ∧ _)) as [[Hin _]|_]; [|exact (Hdata k w)].
        intros [= <-]. by apply Hown. }
      destruct (next_pass_effects _ _ _ Hst Hout Hnext) as (Hlast & Hearly & Hrev).
      split.
      * rewrite Hc, Hcur. destruct (decide _); lia.
      * by rewrite Hd.
      * intros j f Hj Hin. rewrite Hc, Hcur in Hj.
        apply rerender_valid; [done|]. rewrite Hfv.
        destruct (decide (j = currentStep s)) as [->|Hne]; [by apply Hown|].
        apply (Hpassed j); [|done]. destruct (decide (_ = stepCount - 1)); lia.
      * rewrite Hc, Hcur, Hs. destruct (decide _) as [Hend|Hend].
        -- intros _. destruct (Hlast Hend) as [-> _]. by apply Hreview.
        -- intros Hnow. assert (Hbefore : currentStep s = stepCount - 2) by lia.
           apply Hrev; [done|].
           by apply (all_valid_before_review s st).
  - (* Retreat *)
    destruct (rerender_frame s (prev s)) as (_ & Hc & Hs & Hd & _).
    assert (Hprev : currentStep (prev s) = currentStep s - 1 ∧
                    isSubmitted (prev s) = isSubmitted s ∧
                    formData (prev s) = formData s ∧
                    formValues (prev s) = formValues s).
    { cbn [offered] in Hoff. apply negb_true_iff, Z.eqb_neq in Hoff.
      unfold prev. rewrite (proj2 (Z.ltb_lt _ _)) by lia. done. }
    destruct Hprev as (Hc' & Hs' & Hd' & Hv').
    split.
    + rewrite Hc, Hc'. cbn [offered] in Hoff.
      apply negb_true_iff, Z.eqb_neq in Hoff. lia.
    + by rewrite Hd, Hd'.
    + intros j f Hj Hin. rewrite Hc, Hc' in Hj.
      apply rerender_valid; [by rewrite Hd'|]. rewrite Hv'.
      apply (Hpassed j); [lia|done].
    + rewrite Hc, Hc'. lia.
  - (* Edit *)
    cbn [offered] in Hoff. apply bool_decide_eq_true in Hoff.
    rewrite <- ownedFields_inputsAt in Hoff.
    split; cbn [setValue currentStep formData formValues isSubmitted]; try done.
    intros j f Hj Hin. rewrite prop_insert_ne; [by apply (Hpassed j)|].
    intros ->. pose proof (ownedFields_disjoint _ _ _ Hoff Hin). lia.
  - (* Submit *)
    cbn [offered] in Hoff. apply andb_true_iff in Hoff as [Hthree Hnot].
    apply Z.eqb_eq in Hthree. apply negb_true_iff in Hnot.
    rewrite Hreview in Hnot; [done|]. by rewrite Hthree.
Qed.

(** The flag can only be raised by [Advance] on the step before the
    review. *)
Lemma flip_only_before_review e s :
  Inv s → offered s e = true →
  isSubmitted s = false → isSubmitted (fire e s) = true →
  e = Advance ∧ currentStep s = stepCount - 2.
Proof.
  intros HI Hoff Hbefore Hafter. destruct e as [| |g v|]; cbn [fire] in Hafter.
  - split; [done|].
    destruct (next s) as [s'|] eqn:Hnext; [|congruence].
    destruct (rerender_frame s s') as (_ & _ & Hs & _). rewrite Hs in Hafter.
    destruct (next_cases _ _ Hnext) as (st & Hst & [[Hout ->]|(Hout & _)]).
    + destruct (trigger_frame (fields st) s) as (_ & _ & Hs1 & _).
      cbn zeta in Hs1. congruence.
    + destruct (next_pass_effects _ _ _ Hst Hout Hnext) as (Hlast & Hearly & _).
      pose proof (inv_range _ HI) as Hrange.
      destruct (decide (currentStep s = stepCount - 1)) as [Hl|Hnl];
        [destruct (Hlast Hl); congruence|].
      destruct (decide (currentStep s < stepCount - 2)) as [He|Hne];
        [destruct (Hearly He); congruence|]. lia.
  - destruct (rerender_frame s (prev s)) as (_ & _ & Hs & _). rewrite Hs in Hafter.
    unfold prev in Hafter. destruct (0 <? currentStep s); cbn in Hafter; congruence.
  - cbn in Hafter. congruence.
  - cbn [offered] in Hoff. apply andb_true_iff in Hoff as [Hthree _].
    apply Z.eqb_eq in Hthree. rewrite (inv_review _ HI) in Hbefore; [done|].
    by rewrite Hthree.
Qed.

Lemma flips_from t s :
  Inv s → offeredAll t s = true →
  (isSubmitted s = true → flips t s = [] ∧ isSubmitted (run t s) = true) ∧
  (isSubmitted s = false →
     (flips t s = [] ∧ isSubmitted (run t s) = false ∧
      currentStep (run t s) < stepCount - 1) ∨
     (∃ s0, flips t s = [(s0, Advance)] ∧ currentStep s0 = stepCount - 2 ∧
            isSubmitted (run t s) = true)).
Proof.
  revert s. induction t as [|e t IH]; intros s HI Hoff.
  - cbn [flips run]. split; [done|]. intros Hfalse. left. split_and!; try done.
    pose proof (inv_range _ HI). pose proof (inv_review _ HI) as Hrev.
    destruct (decide (currentStep s = stepCount - 1)) as [Heq|]; [|lia].
    rewrite (Hrev Heq) in Hfalse. done.
  - cbn [offeredAll] in Hoff. apply andb_true_iff in Hoff as [Hhead Htail].
    pose proof (Inv_fire _ _ HI Hhead) as HI'.
    destruct (IH _ HI' Htail) as [IHtrue IHfalse]. cbn [flips run]. split.
    + intros Htrue. rewrite Htrue. cbn [negb andb app].
      apply IHtrue. by apply fire_isSubmitted_mono.
    + intros Hfalse. rewrite Hfalse. cbn [negb andb].
      destruct (isSubmitted (fire e s)) eqn:Hafter.
      * destruct (flip_only_before_review _ _ HI Hhead Hfalse Hafter) as [-> Hcur].
        destruct (IHtrue eq_refl) as [-> Hend]. right. by exists s.
      * cbn [app]. by apply IHfalse.
Qed.

(** C4. In every execution through the form as rendered, the submitted
    flag turns from false to true at most once, and only when [next]
    completes the step immediately before the review step; an execution
    that completes all steps (it stands on the review step) has turned it
    exactly once, and nothing done afterwards turns it again, since it
    stays true. *)
Theorem submitted_exactly_once (t : list event) :
  offeredAll t init = true →
  ((flips t init = [] ∧ isSubmitted (run t init) = false ∧
    currentStep (run t init) < stepCount - 1) ∨
   (∃ s, flips t init = [(s, Advance)] ∧ currentStep s = stepCount - 2 ∧
         isSubmitted (run t init) = true)) ∧
  (currentStep (run t init) = stepCount - 1 →
     ∃ s, flips t init = [(s, Advance)] ∧ currentStep s = stepCount - 2) ∧
  (∀ t', isSubmitted (run t init) = true →
         isSubmitted (run t' (run t init)) = true).
Proof.
  intros Hoff.
  destruct (flips_from t init Inv_init Hoff) as [_ Hfalse].
  specialize (Hfalse eq_refl). split_and!.
  - done.
  - intros Hend. destruct Hfalse as [(_ & _ & Hlt)|(s & ? & ? & _)]; [lia|].
    by exists s.
  - intros t'. generalize (run t init). induction t' as [|e t' IH]; intros s Hs.
    + done.
    + cbn [run]. by apply IH, fire_isSubmitted_mono.
Qed.

(** ** The record of calls along a forward traversal *)


Lemma fields_before_review i st :
  stepAt i = Some st → i < stepCount - 1 → ∃ ns, fields st = Some ns.
Proof.
  intros Hst Hlt.
  apply stepAt_Some in Hst as [[Hi ->] | [[Hi ->] | [[Hi ->] | [Hi ->] ] ] ];
    [by eexists..|]. rewrite Hi in Hlt. by cbn in Hlt.
Qed.




End Properties.

(** ** The claims on sample data *)

Lemma advance_valid_step_witness :
  ∃ s', next (lib := sampleZod) personalFilled = Some s' ∧
        currentStep s' = 1 ∧
        formData s' !! "email" = Some (VString "ada@example.org") ∧
        formData s' !! "country" = None.
Proof.
  destruct (advance_valid_step (lib := sampleZod) personalFilled
              (StepDef "Step 1" "Personal Information"
                 (Some ["firstName"; "lastName"; "email"])))
    as (s' & Hnext & Hcur & Hfd).
  - vm_compute. reflexivity.
  - intros f Hf.
    assert (Hown : ownedFields (currentStep personalFilled)
                   = ["firstName"; "lastName"; "email"])
      by (vm_compute; reflexivity).
    rewrite Hown in Hf. split_cons.
    destruct_or!; try done; subst f; vm_compute; reflexivity.
  - exists s'. split; [exact Hnext|].
    vm_compute in Hcur. split; [exact Hcur|].
    rewrite !Hfd. split; vm_compute; reflexivity.
Defined.

Lemma advance_invalid_step_witness :
  ∃ s', next (lib := sampleZod) personalWrong = Some s' ∧
        currentStep s' = 0 ∧ formData s' = ∅ ∧
        errors s' !! "firstName" = Some "First name is required".
Proof.
  destruct (advance_invalid_step (lib := sampleZod) personalWrong
              (StepDef "Step 1" "Personal Information"
                 (Some ["firstName"; "lastName"; "email"]))
              "firstName" "First name is required")
    as (s' & Hnext & Hcur & Hfd & _ & _ & _ & Herr & _).
  - vm_compute. reflexivity.
  - assert (Hown : ownedFields (currentStep personalWrong)
                   = ["firstName"; "lastName"; "email"])
      by (vm_compute; reflexivity).
    rewrite Hown. apply list_elem_of_here.
  - vm_compute. reflexivity.
  - exists s'. split; [exact Hnext|].
    vm_compute in Hcur. vm_compute in Hfd.
    split; [exact Hcur|]. split; [exact Hfd|exact Herr].
Defined.

Lemma advance_messages_witness :
  (∃ s', next (lib := sampleZod) personalWrong = Some s' ∧ currentStep s' = 0 ∧
         errors s' !! "firstName" = Some "First name is required") ∧
  (∃ s', next (lib := sampleZod) personalWrong = Some s' ∧ currentStep s' = 0 ∧
         errors s' !! "email" = Some "Invalid email address").
Proof.
  destruct (advance_messages (lib := sampleZod) personalWrong) as [Hname Hmail].
  - vm_compute. reflexivity.
  - split.
    + apply Hname. vm_compute. reflexivity.
    + apply Hmail; vm_compute; reflexivity.
Defined.

Lemma retreat_frame_witness :
  (currentStep (prev addressReached) = 0 ∧
   formData (prev addressReached) = formData addressReached ∧
   errors (prev addressReached) = errors addressReached) ∧
  prev init = init.
Proof.
  destruct (retreat_frame (lib := sampleZod) addressReached) as [Hback _].
  destruct (retreat_frame (lib := sampleZod) init) as [_ Hfirst].
  destruct Hback as (Hcur & _ & Hfd & Herr & _).
  - vm_compute. reflexivity.
  - destruct Hfirst as [Hsame _].
    + vm_compute. reflexivity.
    + split; [|exact Hsame]. split; [|split; [exact Hfd|exact Herr]].
      rewrite Hcur. vm_compute. reflexivity.
Defined.

Lemma formData_monotone_witness :
  formData (run (lib := sampleZod) thereAndBack addressReached) !! "firstName"
  = Some (VString "Ada").
Proof.
  destruct (formData_monotone (lib := sampleZod) thereAndBack addressReached)
    as [_ Hkeep].
  rewrite (Hkeep 0).
  - vm_compute. reflexivity.
  - vm_compute. repeat split; try discriminate; intros _; discriminate.
  - vm_compute. apply list_elem_of_here.
Defined.

Lemma submitted_exactly_once_witness :
  ∃ s, flips (lib := sampleZod) traversal init = [(s, Advance)] ∧
       currentStep s = stepCount - 2.
Proof.
  destruct (submitted_exactly_once (lib := sampleZod) traversal)
    as (_ & Honce & _).
  - vm_compute. reflexivity.
  - apply Honce. vm_compute. reflexivity.
Defined.


Lemma loadStepData_prefills_witness :
  formValues (loadStepData backAtPersonal) !! "country" = Some (VString "UK") ∧
  rerender addressReached backAtPersonal = loadStepData backAtPersonal.
Proof.
  destruct (loadStepData_prefills backAtPersonal) as (Hfill & _ & _ & Heffect).
  split.
  - rewrite Hfill. vm_compute. reflexivity.
  - apply Heffect. vm_compute. discriminate.
Defined.

Lemma backAtPersonal_country_changes :
  formValues (loadStepData backAtPersonal) !! "country"
  ≠ formValues backAtPersonal !! "country".
Proof. vm_compute. intros Heq. discriminate Heq. Qed.

Lemma backAtPersonal_owned :
  ownedFields (currentStep backAtPersonal) = ["firstName"; "lastName"; "email"].
Proof. vm_compute. reflexivity. Qed.

(** C7 as worded fails: going back to step 0 after an unvalidated change
    of the country on step 1, [loadStepData] overwrites the input of
    [country], a field that step 0 does not own. *)
Lemma loadStepData_touches_other_steps : ¬ prefillsOnlyOwned backAtPersonal.
Proof.
  intros Hclaim.
  pose proof (Hclaim "country" backAtPersonal_country_changes) as [Hin _].
  clear Hclaim. rewrite backAtPersonal_owned in Hin.
  split_cons. destruct_or!; discriminate.
Qed.

(** * Further properties *)

Section Rendering.
Context {lib : Zod}.

(** ** [formatFieldName] *)

Lemma isUpper_code c :
  isUpper c = true ↔ (65 ≤ Ascii.nat_of_ascii c ≤ 90)%nat.
Proof. unfold isUpper. rewrite andb_true_iff, !Nat.leb_le. done. Qed.

Lemma isLower_code c :
  isLower c = true ↔ (97 ≤ Ascii.nat_of_ascii c ≤ 122)%nat.
Proof. unfold isLower. rewrite andb_true_iff, !Nat.leb_le. done. Qed.

Lemma toUpperCase_lower c :
  isLower c = true →
  Ascii.nat_of_ascii (toUpperCase c) = (Ascii.nat_of_ascii c - 32)%nat.
Proof.
  intros Hlow. unfold toUpperCase. rewrite Hlow.
  apply isLower_code in Hlow. apply Ascii.nat_ascii_embedding. lia.
Qed.

Lemma toUpperCase_other c : isLower c = false → toUpperCase c = c.
Proof. intros Hlow. unfold toUpperCase. by rewrite Hlow. Qed.

Lemma ascii_code_inj c d :
  Ascii.nat_of_ascii c = Ascii.nat_of_ascii d → c = d.
Proof.
  intros Heq. rewrite <- (Ascii.ascii_nat_embedding c),
    <- (Ascii.ascii_nat_embedding d). by rewrite Heq.
Qed.

(** Apart from the capitals themselves, putting in upper case loses
    nothing. *)
Lemma toUpperCase_inj c d :
  isUpper c = false → isUpper d = false →
  toUpperCase c = toUpperCase d → c = d.
Proof.
  intros Hc Hd Heq. apply ascii_code_inj.
  apply (f_equal Ascii.nat_of_ascii) in Heq.
  apply not_true_iff_false in Hc, Hd. rewrite isUpper_code in Hc, Hd.
  destruct (isLower c) eqn:Lc, (isLower d) eqn:Ld.
  - rewrite !toUpperCase_lower in Heq by done.
    apply isLower_code in Lc, Ld. lia.
  - rewrite toUpperCase_lower, (toUpperCase_other d) in Heq by done.
    apply isLower_code in Lc. lia.
  - rewrite (toUpperCase_other c), toUpperCase_lower in Heq by done.
    apply isLower_code in Ld. lia.
  - by rewrite !toUpperCase_other in Heq by done.
Qed.

Lemma spaceCapitals_head s :
  match spaceCapitals s with
  | EmptyString => s = EmptyString
  | String c _ => isUpper c = false
  end.
Proof.
  destruct s as [|c rest]; cbn [spaceCapitals]; [done|].
  by destruct (isUpper c) eqn:Hc.
Qed.

Lemma spaceCapitals_inj s1 s2 :
  spaceCapitals s1 = spaceCapitals s2 → s1 = s2.
Proof.
  revert s2. induction s1 as [|c1 r1 IH]; intros [|c2 r2]; cbn [spaceCapitals].
  - done.
  - by destruct (isUpper c2).
  - by destruct (isUpper c1).
  - destruct (isUpper c1) eqn:H1, (isUpper c2) eqn:H2.
    + intros [= -> Hrest]. f_equal. by apply IH.
    + intros [= <- Hrest]. exfalso.
      destruct r2 as [|d r2']; cbn [spaceCapitals] in Hrest; [done|].
      destruct (isUpper d) eqn:Hd.
      * injection Hrest as -> _. by vm_compute in H1.
      * injection Hrest as -> _. congruence.
    + intros [= -> Hrest]. exfalso.
      destruct r1 as [|d r1']; cbn [spaceCapitals] in Hrest; [done|].
      destruct (isUpper d) eqn:Hd.
      * injection Hrest as <- _. by vm_compute in H2.
      * injection Hrest as <- _. congruence.
    + intros [= -> Hrest]. f_equal. by apply IH.
Qed.

(** X1. Two ASCII field names that get the same label are the same
    name. *)
Theorem formatFieldName_injective (s1 s2 : string) :
  asciiOnly s1 → asciiOnly s2 →
  formatFieldName s1 = formatFieldName s2 → s1 = s2.
Proof.
  intros _ _ Heq. apply spaceCapitals_inj. unfold formatFieldName in Heq.
  pose proof (spaceCapitals_head s1) as H1.
  pose proof (spaceCapitals_head s2) as H2.
  destruct (spaceCapitals s1) as [|c1 r1], (spaceCapitals s2) as [|c2 r2];
    cbn [capitalizeFirst] in Heq; try done.
  injection Heq as Hhead ->. f_equal. by apply toUpperCase_inj.
Qed.

Lemma spaceCapitals_length s :
  String.length (spaceCapitals s) = (String.length s + capitals s)%nat.
Proof.
  induction s as [|c rest IH]; cbn [spaceCapitals capitals String.length]; [done|].
  destruct (isUpper c); cbn [String.length]; lia.
Qed.

(** X2. The label of an ASCII field name has one character more than the name
    for each capital in it, and never starts with a lower-case letter;
    the empty name has the empty label. *)
Theorem formatFieldName_shape (s : string) :
  asciiOnly s →
  String.length (formatFieldName s) = (String.length s + capitals s)%nat ∧
  match formatFieldName s with
  | EmptyString => s = EmptyString
  | String c _ => isLower c = false
  end.
Proof.
  intros _. unfold formatFieldName. split.
  - rewrite <- spaceCapitals_length. by destruct (spaceCapitals s).
  - pose proof (spaceCapitals_head s) as Hhead.
    destruct (spaceCapitals s) as [|c r]; cbn [capitalizeFirst]; [done|].
    destruct (isLower c) eqn:Hlow; [|by rewrite toUpperCase_other].
    apply not_true_iff_false. rewrite isLower_code, toUpperCase_lower by done.
    apply isLower_code in Hlow. lia.
Qed.

(** ** The direction of the transition *)

Lemma next_pass_previous s st s' :
  stepAt (currentStep s) = Some st →
  (trigger (fields st) s).1 = true →
  next s = Some s' →
  currentStep s < stepCount - 1 →
  previousStep s' = currentStep s ∧ currentStep s' = currentStep s + 1.
Proof.
  intros Hst Hout Hnext Hlt.
  rewrite (next_unfold _ _ Hst) in Hnext. injection Hnext as <-.
  cbn zeta. rewrite Hout. cbn [negb].
  rewrite (proj2 (Z.ltb_lt _ _) Hlt).
  destruct (trigger_frame (fields st) s) as (_ & Hcur & _).
  cbn zeta in Hcur.
  destruct (handleSubmit_frame (saveStepData (trigger (fields st) s).2))
    as (_ & Hcur' & _). cbn zeta in Hcur'.
  destruct (currentStep s =? stepCount - 2);
    cbn [setCurrentStep setPreviousStep previousStep currentStep];
    [rewrite Hcur'|]; by rewrite (proj1 (proj2 (saveStepData_frame _))), Hcur.
Qed.

(** What one action does to the two indices: nothing, or a move by one
    that remembers where it came from. *)
Lemma fire_indices e s :
  (currentStep (fire e s) = currentStep s ∧
   previousStep (fire e s) = previousStep s) ∨
  (e = Advance ∧ currentStep (fire e s) = currentStep s + 1 ∧
   previousStep (fire e s) = currentStep s) ∨
  (e = Retreat ∧ currentStep (fire e s) = currentStep s - 1 ∧
   previousStep (fire e s) = currentStep s).
Proof.
  destruct e as [| |g v|]; cbn [fire].
  - destruct (next s) as [s'|] eqn:Hnext; [|by left].
    destruct (rerender_frame s s') as (-> & -> & _).
    destruct (next_cases _ _ Hnext) as (st & Hst & [[_ ->]|(Hout & Hcur & _)]).
    + left. by destruct (trigger_frame (fields st) s) as (-> & -> & _).
    + destruct (decide (currentStep s = stepCount - 1)) as [Hlast|Hnot].
      * left. split; [done|].
        rewrite (next_unfold _ _ Hst) in Hnext. injection Hnext as <-.
        cbn zeta. rewrite Hout. cbn [negb].
        rewrite (proj2 (Z.ltb_ge _ _)) by lia.
        cbn [saveStepData setFormData previousStep].
        by destruct (trigger_frame (fields st) s) as (-> & _).
      * right. left.
        assert (currentStep s < stepCount - 1) as Hlt.
        { assert (0 ≤ currentStep s ≤ stepCount - 1); [|lia].
          apply stepAt_is_Some. by eexists. }
        destruct (next_pass_previous _ _ _ Hst Hout Hnext Hlt) as [-> ->]. done.
  - destruct (rerender_frame s (prev s)) as (-> & -> & _).
    unfold prev. destruct (0 <? currentStep s); [|by left].
    right. right. done.
  - by left.
  - left. by destruct (handleSubmit_frame s) as (-> & -> & _).
Qed.

(** X3. Whenever an action changes the step, the new panel enters from
    the side the user is heading to: after a step forward [delta] is 1
    and the panel starts at 50%, after a step back [delta] is -1 and it
    starts at -50%.  In every reachable state the previous index is a
    valid index at most one away from the current one. *)
Theorem transition_direction :
  (∀ e s, currentStep (fire e s) ≠ currentStep s →
          (currentStep (fire e s) = currentStep s + 1 ∧
           delta (fire e s) = 1 ∧ initialX (fire e s) = "50%") ∨
          (currentStep (fire e s) = currentStep s - 1 ∧
           delta (fire e s) = -1 ∧ initialX (fire e s) = "-50%")) ∧
  (∀ t, -1 ≤ delta (run t init) ≤ 1 ∧
        0 ≤ previousStep (run t init) ≤ stepCount - 1).
Proof.
  split.
  - intros e s Hmoved. unfold initialX, delta.
    destruct (fire_indices e s) as [[Hc _]|[(_ & -> & ->)|(_ & -> & ->)]].
    + done.
    + left. split; [done|]. replace (currentStep s + 1 - currentStep s) with 1 by lia.
      done.
    + right. split; [done|].
      replace (currentStep s - 1 - currentStep s) with (-1) by lia. done.
  - intros t.
    assert (Hgen : ∀ s, 0 ≤ currentStep s ≤ stepCount - 1 →
                        -1 ≤ delta s ≤ 1 →
                        0 ≤ previousStep s ≤ stepCount - 1 →
                        -1 ≤ delta (run t s) ≤ 1 ∧
                        0 ≤ previousStep (run t s) ≤ stepCount - 1).
    { induction t as [|e t IH]; intros s Hr Hd Hp; cbn [run]; [done|].
      pose proof (fire_range e s Hr) as Hr'.
      apply IH; [done|..]; unfold delta in *;
        destruct (fire_indices e s) as [[? ?]|[(_ & ? & ?)|(_ & ? & ?)]];
        lia. }
    apply Hgen; by cbn.
Qed.

(** ** The progress bar *)

(** X4. In every reachable state the progress bar shows the steps
    before the current one as completed, exactly one step as current,
    and the steps after it as upcoming. *)
Theorem progressBar_one_current (t : list event) :
  let s := run t init in
  progressBar s =
    replicate (Z.to_nat (currentStep s)) Completed ++ [Current] ++
    replicate (Z.to_nat (stepCount - 1 - currentStep s)) Upcoming.
Proof.
  intros s. pose proof (run_range t init) as Hrange.
  fold s in Hrange. unfold progressBar, navItem.
  assert (Hcase : currentStep s = 0 ∨ currentStep s = 1 ∨
                  currentStep s = 2 ∨ currentStep s = 3).
  { assert (0 ≤ currentStep s ≤ stepCount - 1) as H by by apply Hrange.
    unfold stepCount in H. cbn in H. lia. }
  destruct Hcase as [-> | [-> | [-> | ->] ] ]; done.
Qed.

(** ** [next] never throws *)

(** X5. [next] throws exactly when the index is outside the steps, and
    this never happens in a reachable state. *)
Theorem next_never_throws :
  (∀ s, next s = None ↔ ¬ (0 ≤ currentStep s ≤ stepCount - 1)) ∧
  (∀ t, is_Some (next (run t init))).
Proof.
  split.
  - intros s. rewrite <- next_is_Some. rewrite <- not_eq_None_Some.
    destruct (next s); naive_solver.
  - intros t. apply next_is_Some. by apply run_range.
Qed.

(** ** Errors after a successful [next] *)

(** X6. When all fields of a step before the review pass, [next] leaves
    no error on any field of that step. *)
Theorem advance_clears_errors (s : state) (st : stepDef) :
  stepAt (currentStep s) = Some st →
  currentStep s < stepCount - 1 →
  (∀ f, f ∈ ownedFields (currentStep s) →
        fieldError f (prop (formValues s) f) = None) →
  ∃ s', next s = Some s' ∧
        ∀ f, f ∈ ownedFields (currentStep s) → errors s' !! f = None.
Proof.
  intros Hst Hlt Hvalid.
  destruct (fields_before_review _ _ Hst Hlt) as [ns Hns].
  assert (Hown : ownedFields (currentStep s) = ns).
  { unfold ownedFields. by rewrite Hst, Hns. }
  assert (Hout : (trigger (fields st) s).1 = true).
  { rewrite Hns. apply trigger_some_output. by rewrite <- Hown. }
  eexists. split; [by apply next_unfold|].
  intros f Hin. cbn zeta. rewrite Hout. cbn [negb].
  rewrite (proj2 (Z.ltb_lt _ _) Hlt).
  destruct (trigger_frame (fields st) s) as (_ & _ & _ & _ & Hfv & _).
  cbn zeta in Hfv.
  assert (Hafter : errors (saveStepData (trigger (fields st) s).2) !! f = None).
  { cbn [saveStepData setFormData errors]. rewrite Hns, trigger_some_errors.
    rewrite decide_True by by rewrite <- Hown. by apply Hvalid. }
  destruct (currentStep s =? stepCount - 2);
    cbn [setCurrentStep setPreviousStep errors]; [|done].
  destruct (handleSubmit_frame (saveStepData (trigger (fields st) s).2))
    as (_ & _ & _ & _ & ->).
  rewrite zodResolver_lookup. cbn [saveStepData setFormData formValues].
  rewrite Hfv. by apply Hvalid.
Qed.

(** ** Saving and loading *)

(** X7. Saving the current step and loading the recorded data back gives
    every input of the step that held a value the same value again;
    saving twice records what saving once does, and so does loading. *)
Theorem save_load_roundtrip (s : state) :
  (∀ f v, f ∈ ownedFields (currentStep s) →
          formValues s !! f = Some v → v ≠ VUndefined →
          formValues (loadStepData (saveStepData s)) !! f = Some v) ∧
  formData (saveStepData (saveStepData s)) = formData (saveStepData s) ∧
  formValues (loadStepData (loadStepData s)) = formValues (loadStepData s).
Proof.
  split_and!.
  - intros f v Hin Hv Hdef. rewrite loadStepData_lookup, saveStepData_lookup.
    rewrite (prop_lookup _ _ _ Hv). by rewrite decide_True.
  - apply map_eq. intros f. rewrite !saveStepData_lookup.
    destruct (saveStepData_frame s) as (_ & -> & _ & -> & _).
    by destruct (decide _).
  - apply map_eq. intros f. rewrite !loadStepData_lookup.
    destruct (loadStepData_frame s) as (_ & _ & _ & -> & _).
    by destruct (formData s !! f).
Qed.

(** ** The recorded data and the inputs *)

Lemma owned_range j f : f ∈ ownedFields j → 0 ≤ j ≤ stepCount - 2.
Proof.
  rewrite ownedFields_inputsAt. unfold inputsAt, stepCount. cbn [length steps].
  destruct (Z.eqb_spec j 0), (Z.eqb_spec j 1), (Z.eqb_spec j 2);
    try lia. by intros ?%elem_of_nil.
Qed.

Lemma run_keeps_Inv t s : Inv s → offeredAll t s = true → Inv (run t s).
Proof.
  revert s. induction t as [|e t IH]; intros s HI Hoff; cbn [run]; [done|].
  cbn [offeredAll] in Hoff. apply andb_true_iff in Hoff as [Hhead Htail].
  apply IH; [by apply Inv_fire|done].
Qed.

Lemma next_pass_errors s st s' :
  stepAt (currentStep s) = Some st →
  (trigger (fields st) s).1 = true →
  next s = Some s' →
  currentStep s = stepCount - 2 →
  (∀ f, fieldError f (prop (formValues s) f) = None) →
  errors s' = ∅.
Proof.
  intros Hst Hout Hnext Hcur Hall.
  rewrite (next_unfold _ _ Hst) in Hnext. injection Hnext as <-.
  cbn zeta. rewrite Hout. cbn [negb].
  rewrite (proj2 (Z.ltb_lt _ _)) by lia.
  rewrite (proj2 (Z.eqb_eq _ _)) by lia.
  cbn [setCurrentStep setPreviousStep errors].
  destruct (handleSubmit_frame (saveStepData (trigger (fields st) s).2))
    as (_ & _ & _ & _ & ->).
  cbn [saveStepData setFormData formValues].
  destruct (trigger_frame (fields st) s) as (_ & _ & _ & _ & -> & _).
  apply dom_empty_iff_L. by apply zodResolver_empty.
Qed.

Lemma Synced_init : Synced init.
Proof.
  split; cbn [init currentStep formData formValues errors].
  - intros j f ?. lia.
  - intros k v. by rewrite lookup_empty.
  - intros f. unfold prop. by rewrite lookup_empty.
  - intros f v. by rewrite lookup_empty.
  - done.
Qed.

(** Loading the recorded data establishes the agreement, provided what
    the inputs of the earlier steps hold is recorded. *)
Lemma Synced_load s :
  (∀ j f, 0 ≤ j < currentStep s → f ∈ ownedFields j →
          prop (formValues s) f ≠ VUndefined →
          formData s !! f = Some (prop (formValues s) f)) →
  (∀ f, prop (formValues s) f ≠ VUndefined → ∃ j, f ∈ ownedFields j) →
  (∀ f v, formData s !! f = Some v → ∃ j, f ∈ ownedFields j) →
  (currentStep s = stepCount - 1 → errors s = ∅) →
  Synced (loadStepData s).
Proof.
  intros Hrec Hin Hkeys Herr.
  destruct (loadStepData_frame s) as (_ & Hc & _ & Hd & He & _).
  split; rewrite ?Hc, ?Hd, ?He; try done.
  - intros j f Hj Hown. unfold prop. rewrite loadStepData_lookup.
    destruct (formData s !! f) as [v|] eqn:E; [done|].
    intros Hdef. rewrite <- E. by apply (Hrec j).
  - intros k v Hk _. by rewrite loadStepData_lookup, Hk.
  - intros f. unfold prop. rewrite loadStepData_lookup.
    destruct (formData s !! f) as [v|] eqn:E; [|exact (Hin f)].
    intros _. by apply (Hkeys f v).
Qed.

Lemma Synced_fire e s :
  Inv s → Synced s → offered s e = true → Synced (fire e s).
Proof.
  intros HI [Hrec Hload Hin Hkeys Herr] Hoff.
  pose proof (inv_range _ HI) as Hrange.
  destruct e as [| |g v|]; cbn [fire].
  - (* Advance *)
    destruct (next s) as [s'|] eqn:Hnext; [|by split].
    cbn [offered] in Hoff. apply negb_true_iff, Z.eqb_neq in Hoff.
    destruct (next_cases _ _ Hnext) as (st & Hst & [[Hout ->]|(Hout & Hcur & Hfv & Hfd)]).
    + destruct (trigger_frame (fields st) s) as (_ & Hc1 & _ & Hd1 & Hv1 & _).
      cbn zeta in *. unfold rerender. rewrite Hc1, Z.eqb_refl.
      split; rewrite ?Hc1, ?Hd1, ?Hv1; try done.
    + rewrite decide_False in Hcur by done.
      unfold rerender. rewrite Hcur, (proj2 (Z.eqb_neq _ _)) by lia.
      pose proof (trigger_pass_owned _ _ Hst Hout) as Hown.
      apply Synced_load; rewrite ?Hcur, ?Hfv.
      * intros j f Hj Hf Hdef. rewrite Hfd.
        destruct (decide (j = currentStep s)) as [->|Hne].
        -- by rewrite decide_True.
        -- rewrite decide_False.
           ++ apply (Hrec j); [lia|done..].
           ++ intros [Hhere _]. apply Hne. by apply (ownedFields_disjoint _ _ f).
      * done.
      * intros f w. rewrite Hfd. destruct (decide _) as [[Hhere _]|_].
        -- intros _. by eexists.
        -- exact (Hkeys f w).
      * intros Hend.
        apply (next_pass_errors s st); [done..|lia|].
        apply (all_valid_before_review s st); [done..|lia].
  - (* Retreat *)
    cbn [offered] in Hoff. apply negb_true_iff, Z.eqb_neq in Hoff.
    assert (Hprev : currentStep (prev s) = currentStep s - 1 ∧
                    formData (prev s) = formData s ∧
                    formValues (prev s) = formValues s ∧
                    errors (prev s) = errors s).
    { unfold prev. rewrite (proj2 (Z.ltb_lt _ _)) by lia. done. }
    destruct Hprev as (Hc & Hd & Hv & He).
    unfold rerender. rewrite Hc, (proj2 (Z.eqb_neq _ _)) by lia.
    apply Synced_load; rewrite ?Hc, ?Hd, ?Hv, ?He; try done.
    + intros j f Hj. apply Hrec. lia.
    + lia.
  - (* Edit *)
    cbn [offered] in Hoff. apply bool_decide_eq_true in Hoff.
    pose proof Hoff as Hmine. rewrite <- ownedFields_inputsAt in Hmine.
    split; cbn [setValue currentStep formData formValues errors]; try done.
    + intros j f Hj Hf. rewrite prop_insert_ne; [by apply (Hrec j)|].
      intros ->. pose proof (ownedFields_disjoint _ _ _ Hmine Hf). lia.
    + intros k w Hk Hnot. rewrite lookup_insert_ne; [by apply Hload|].
      by intros ->.
    + intros f. destruct (decide (g = f)) as [<-|Hne]; [by eexists|].
      rewrite prop_insert_ne by done. exact (Hin f).
  - (* Submit *)
    cbn [offered] in Hoff. apply andb_true_iff in Hoff as [Hthree Hnot].
    apply Z.eqb_eq in Hthree. apply negb_true_iff in Hnot.
    rewrite (inv_review _ HI) in Hnot; [done|]. by rewrite Hthree.
Qed.

Lemma run_Synced t s :
  Inv s → Synced s → offeredAll t s = true → Synced (run t s).
Proof.
  revert s. induction t as [|e t IH]; intros s HI HS Hoff; cbn [run]; [done|].
  cbn [offeredAll] in Hoff. apply andb_true_iff in Hoff as [Hhead Htail].
  apply IH; [by apply Inv_fire|by apply Synced_fire|done].
Qed.

(** ** The review step *)

Lemma run_noUndefined t s :
  noUndefined (formData s) → noUndefined (formData (run t s)).
Proof.
  revert s. induction t as [|e t IH]; intros s Hs; cbn [run]; [done|].
  by apply IH, fire_noUndefined.
Qed.

(** On the review step the recorded data and the inputs are one and the
    same, and every field of a step holds a value that passes. *)
Lemma review_state s :
  Inv s → Synced s → currentStep s = stepCount - 1 →
  (∀ f, prop (formData s) f = prop (formValues s) f) ∧
  (∀ j f, f ∈ ownedFields j → fieldError f (prop (formData s) f) = None).
Proof.
  intros HI HS Hend.
  assert (Hagree : ∀ f, prop (formData s) f = prop (formValues s) f).
  { intros f. destruct (formData s !! f) as [v|] eqn:E.
    - unfold prop. rewrite E, (sy_loaded _ HS f v E); [done|].
      rewrite Hend. apply not_elem_of_nil.
    - destruct (decide (prop (formValues s) f = VUndefined)) as [Hun|Hdef].
      + unfold prop in *. by rewrite E, Hun.
      + destruct (sy_inputs _ HS f Hdef) as [j Hj].
        pose proof (owned_range _ _ Hj).
        rewrite (sy_recorded _ HS j f) in E; [done| |done..]. lia. }
  split; [done|]. intros j f Hj. rewrite Hagree.
  pose proof (owned_range _ _ Hj). apply (inv_passed _ HI j); [lia|done].
Qed.

(** X8. On the review step, in every execution of the form as rendered,
    the recorded data and the inputs agree on every field, no error is
    displayed and the form is submitted. *)
Theorem review_agrees_with_inputs (t : list event) :
  offeredAll t init = true →
  currentStep (run t init) = stepCount - 1 →
  (∀ f, prop (formData (run t init)) f = prop (formValues (run t init)) f) ∧
  errors (run t init) = ∅ ∧
  isSubmitted (run t init) = true.
Proof.
  intros Hoff Hend.
  pose proof (run_keeps_Inv t init Inv_init Hoff) as HI.
  pose proof (run_Synced t init Inv_init Synced_init Hoff) as HS.
  split_and!.
  - by apply review_state.
  - by apply (sy_errors _ HS).
  - by apply (inv_review _ HI).
Qed.

Lemma owned_in_schema j f : f ∈ ownedFields j → is_Some (shapeOf f).
Proof.
  rewrite ownedFields_inputsAt. unfold inputsAt.
  destruct (j =? 0); [|destruct (j =? 1); [|destruct (j =? 2)]];
    intros Hin; split_cons; destruct_or!; try done; subst f; by eexists.
Qed.

Lemma shownAs_valid s f :
  is_Some (shapeOf f) → noUndefined (formData s) →
  fieldError f (prop (formData s) f) = None →
  shownAs s f (formatValue (prop (formData s) f)).
Proof.
  intros [shape Hshape] Hno. unfold fieldError, shownAs.
  rewrite Hshape. specialize (Hno f).
  destruct (formData s !! f) as [v|] eqn:E.
  - rewrite (prop_lookup _ _ _ E).
    destruct v as [|str|b], shape as [n msg|msg|];
      cbn [safeParseField formatValue]; try done.
    + destruct (Nat.leb_spec n (String.length str)) as [Hle|]; [|done].
      intros _. exists str. split_and!; [done..|].
      intros Hpos. rewrite decide_False; [done|]. intros ->. cbn in Hle. lia.
    + destruct (isEmail str) eqn:Hmail; [|done]. intros _. by exists str.
    + intros _. right. by exists b.
  - replace (prop (formData s) f) with VUndefined
      by (unfold prop; by rewrite E).
    destruct shape as [n msg|msg|]; cbn [safeParseField formatValue]; try done.
    intros _. by left.
Qed.

(** X9. On the review step, in every execution of the form as rendered,
    every row of the review carries the label of a field of the schema,
    and shows: for a text field, the recorded string, which has at least
    the required length, word for word; for the email, the recorded
    email-shaped string; for a checkbox, Yes or No as recorded, or "Not
    provided" when nothing was recorded. *)
Theorem review_shows_recorded (t : list event) :
  offeredAll t init = true →
  currentStep (run t init) = stepCount - 1 →
  ∀ title rows label shown,
    (title, rows) ∈ reviewRows (run t init) → (label, shown) ∈ rows →
    ∃ field, label = formatFieldName field ∧
             shownAs (run t init) field shown.
Proof.
  intros Hoff Hend title rows label shown Hsec Hrow.
  pose proof (run_keeps_Inv t init Inv_init Hoff) as HI.
  pose proof (run_Synced t init Inv_init Synced_init Hoff) as HS.
  destruct (review_state _ HI HS Hend) as [_ Hvalid].
  assert (Hno : noUndefined (formData (run t init))).
  { apply run_noUndefined. intros k. cbn [init formData]. by rewrite lookup_empty. }
  unfold reviewRows in Hsec. apply list_elem_of_fmap in Hsec as (sec & Heq & Hin).
  injection Heq as -> ->.
  apply list_elem_of_fmap in Hrow as (field & Heq & Hfield).
  injection Heq as -> ->. exists field. split; [done|].
  assert (∃ j, field ∈ ownedFields j) as [j Hj].
  { unfold sections in Hin. split_cons.
    destruct Hin as [-> | [-> | [-> | [] ] ] ];
      [by exists 0|by exists 1|by exists 2]. }
  apply shownAs_valid; [by apply (owned_in_schema j)|done|by apply (Hvalid j)].
Qed.

(** ** Going back and forth *)

(** X10. From any step but the first, in every execution of the form as
    rendered, pressing Previous and then Next is always possible and
    brings the user back to the same step with the same recorded data
    and the same submitted flag. *)
Theorem back_and_forth (t : list event) :
  offeredAll t init = true →
  1 ≤ currentStep (run t init) →
  offeredAll [Retreat; Advance] (run t init) = true ∧
  currentStep (run [Retreat; Advance] (run t init)) = currentStep (run t init) ∧
  formData (run [Retreat; Advance] (run t init)) = formData (run t init) ∧
  isSubmitted (run [Retreat; Advance] (run t init)) = isSubmitted (run t init).
Proof.
  intros Hoff Hpos.
  pose proof (run_keeps_Inv t init Inv_init Hoff) as HI.
  pose proof (run_Synced t init Inv_init Synced_init Hoff) as HS.
  set (s := run t init) in *. cbn [run offeredAll].
  pose proof (inv_range _ HI) as Hrange.
  assert (Hback : offered s Retreat = true).
  { cbn [offered]. apply negb_true_iff, Z.eqb_neq. lia. }
  pose proof (Inv_fire _ _ HI Hback) as HI1.
  set (s1 := fire Retreat s) in *.
  assert (Hs1 : s1 = loadStepData (prev s) ∧ currentStep (prev s) = currentStep s - 1
                ∧ formData (prev s) = formData s
                ∧ formValues (prev s) = formValues s
                ∧ isSubmitted (prev s) = isSubmitted s).
  { unfold s1, fire, rerender, prev. rewrite (proj2 (Z.ltb_lt _ _)) by lia.
    cbn [setCurrentStep setPreviousStep currentStep formData formValues isSubmitted].
    rewrite (proj2 (Z.eqb_neq _ _)) by lia. done. }
  destruct Hs1 as (Hs1 & Hpc & Hpd & Hpv & Hps).
  destruct (loadStepData_frame (prev s)) as (_ & Hc1 & Hsub1 & Hd1 & _).
  rewrite <- Hs1 in Hc1, Hsub1, Hd1. rewrite Hpc in Hc1. rewrite Hps in Hsub1.
  rewrite Hpd in Hd1.
  assert (Hv1 : ∀ f, formValues s1 !! f =
                     match formData s !! f with
                     | Some v => Some v
                     | None => formValues s !! f
                     end).
  { intros f. by rewrite Hs1, loadStepData_lookup, Hpd, Hpv. }
  assert (is_Some (stepAt (currentStep s1))) as [st Hst].
  { apply stepAt_is_Some. rewrite Hc1. lia. }
  assert (Hlt : currentStep s1 < stepCount - 1) by (rewrite Hc1; lia).
  destruct (fields_before_review _ _ Hst Hlt) as [ns Hns].
  assert (Hown : ownedFields (currentStep s1) = ns).
  { unfold ownedFields. by rewrite Hst, Hns. }
  assert (Hvalid : ∀ f, f ∈ ownedFields (currentStep s1) →
                        fieldError f (prop (formValues s1) f) = None).
  { intros f Hin. unfold prop. rewrite Hv1.
    destruct (formData s !! f) as [v|] eqn:E.
    - by apply (inv_data _ HI f).
    - apply (inv_passed _ HI (currentStep s1)); [lia|done]. }
  assert (Hout : (trigger (fields st) s1).1 = true).
  { rewrite Hns. apply trigger_some_output. by rewrite <- Hown. }
  destruct (next_passes _ _ Hst Hout) as (s2 & Hnext & Hc2 & _ & Hfd2).
  rewrite decide_False in Hc2 by lia.
  destruct (next_pass_effects _ _ _ Hst Hout Hnext) as (_ & Hearly & Hrev).
  change (fire Advance s1)
    with (match next s1 with Some s' => rerender s1 s' | None => s1 end).
  rewrite Hnext. destruct (rerender_frame s1 s2) as (_ & -> & -> & -> & _).
  split_and!.
  - rewrite Hback. cbn [andb offered]. rewrite andb_true_r.
    apply negb_true_iff, Z.eqb_neq. lia.
  - lia.
  - apply map_eq. intros f. rewrite Hfd2, Hd1.
    destruct (decide _) as [[Hin Hdef]|_]; [|done].
    unfold prop in *. rewrite Hv1 in *.
    destruct (formData s !! f) as [v|] eqn:E; [done|].
    rewrite <- E. symmetry.
    apply (sy_recorded _ HS (currentStep s1)); [lia|done..].
  - destruct (decide (currentStep s1 < stepCount - 2)) as [He|Hne].
    + destruct (Hearly He) as [-> _]. done.
    + assert (Hbefore : currentStep s1 = stepCount - 2) by lia.
      destruct (Hrev Hbefore) as [-> _].
      * by apply (all_valid_before_review s1 st).
      * symmetry. apply (inv_review _ HI). lia.
Qed.

(** ** The form can always be completed *)

Lemma run_app t1 t2 s : run (t1 ++ t2) s = run t2 (run t1 s).
Proof. revert s. induction t1 as [|e t1 IH]; intros s; cbn; [done|apply IH]. Qed.

Lemma offeredAll_app t1 t2 s :
  offeredAll (t1 ++ t2) s = offeredAll t1 s && offeredAll t2 (run t1 s).
Proof.
  revert s. induction t1 as [|e t1 IH]; intros s; cbn; [done|].
  by rewrite IH, andb_assoc.
Qed.

Lemma fieldError_text f msg :
  shapeOf f = Some (ZStringMin 1 msg) → fieldError f (VString "x") = None.
Proof. intros Hshape. unfold fieldError. by rewrite Hshape. Qed.

Lemma fieldError_checkbox f b :
  shapeOf f = Some ZBooleanOptional → fieldError f (VBoolean b) = None.
Proof. intros Hshape. unfold fieldError. by rewrite Hshape. Qed.

(** Changes of inputs of the current step, followed by Next, move on
    when they leave the step valid. *)
Lemma edits_then_advance edits s :
  0 ≤ currentStep s < stepCount - 1 →
  Forall (λ e, ∃ f v, e = Edit f v ∧ f ∈ inputsAt (currentStep s)) edits →
  (∀ f, f ∈ ownedFields (currentStep s) →
        fieldError f (prop (formValues (run edits s)) f) = None) →
  offeredAll (edits ++ [Advance]) s = true ∧
  currentStep (run (edits ++ [Advance]) s) = currentStep s + 1.
Proof.
  intros Hrange Hedits Hvalid.
  assert (Hkeep : currentStep (run edits s) = currentStep s ∧
                  offeredAll edits s = true).
  { clear Hvalid. revert s Hrange Hedits.
    induction edits as [|e edits IH]; intros s Hrange Hedits; [done|].
    apply Forall_cons in Hedits as [(f & v & -> & Hin) Hrest].
    cbn [run offeredAll offered fire].
    destruct (IH (setValue f v s)) as [-> ->]; [done..|].
    split; [done|]. rewrite andb_true_r. by apply bool_decide_eq_true. }
  destruct Hkeep as [Hcur Hoff].
  rewrite offeredAll_app, run_app, Hoff. cbn [andb offeredAll run offered].
  rewrite Hcur, andb_true_r. split.
  { apply negb_true_iff, Z.eqb_neq. lia. }
  set (filled := run edits s) in *.
  assert (is_Some (stepAt (currentStep filled))) as [st Hst].
  { apply stepAt_is_Some. lia. }
  assert (Hlt : currentStep filled < stepCount - 1) by lia.
  destruct (fields_before_review _ _ Hst Hlt) as [ns Hns].
  assert (Hout : (trigger (fields st) filled).1 = true).
  { rewrite Hns. apply trigger_some_output. intros n Hn. apply Hvalid.
    rewrite <- Hcur. unfold ownedFields. by rewrite Hst, Hns. }
  destruct (next_passes _ _ Hst Hout) as (s2 & Hnext & Hc2 & _).
  rewrite decide_False in Hc2 by lia.
  cbn [fire]. rewrite Hnext.
  destruct (rerender_frame filled s2) as (_ & -> & _). lia.
Qed.

Lemma fieldError_email email :
  isEmail email = true → fieldError "email" (VString email) = None.
Proof.
  intros Hmail. unfold fieldError.
  replace (shapeOf "email")
    with (Some (ZStringEmail "Invalid email address")) by by vm_compute.
  cbn [safeParseField]. by rewrite Hmail.
Qed.

(** Filling in a step as [fillStep] does and pressing Next moves on. *)
Lemma fillStep_advances email s :
  isEmail email = true →
  0 ≤ currentStep s < stepCount - 1 →
  offeredAll (fillStep email (currentStep s) ++ [Advance]) s = true ∧
  currentStep (run (fillStep email (currentStep s) ++ [Advance]) s)
  = currentStep s + 1.
Proof.
  intros Hmail Hrange. apply edits_then_advance; [done|..].
  - unfold fillStep, inputsAt.
    destruct (currentStep s =? 0); [|destruct (currentStep s =? 1);
                                      [|destruct (currentStep s =? 2)]];
      repeat (apply Forall_cons; split;
              [eexists _, _; split; [done|]; split_cons; tauto|]);
      apply Forall_nil_2.
  - intros f. rewrite ownedFields_inputsAt. unfold fillStep, inputsAt.
    destruct (currentStep s =? 0); [|destruct (currentStep s =? 1);
                                      [|destruct (currentStep s =? 2)]];
      intros Hin; cbn [run fire setValue formValues]; split_cons;
      destruct_or!; try done; subst f; unfold prop; simplify_map_eq;
      cbn [default];
      first [ by eapply fieldError_text
            | by eapply fieldError_checkbox
            | by apply fieldError_email ].
Qed.

Lemma completeFrom_finishes email n s :
  isEmail email = true → Inv s →
  currentStep s + Z.of_nat n = stepCount - 1 →
  offeredAll (completeFrom email (currentStep s) n) s = true ∧
  currentStep (run (completeFrom email (currentStep s) n) s) = stepCount - 1 ∧
  Inv (run (completeFrom email (currentStep s) n) s).
Proof.
  intros Hmail. revert s. induction n as [|n IH]; intros s HI Hsum.
  - cbn [completeFrom offeredAll run]. split_and!; [done|lia|done].
  - pose proof (inv_range _ HI) as Hrange.
    destruct (fillStep_advances email s Hmail) as [Hoff Hcur]; [lia|].
    cbn [completeFrom]. rewrite app_assoc, run_app, offeredAll_app, Hoff.
    set (s1 := run (fillStep email (currentStep s) ++ [Advance]) s) in *.
    rewrite <- Hcur. cbn [andb].
    apply IH; [by apply run_keeps_Inv|lia].
Qed.

(** X11. Provided the schema library accepts some email address, the
    form can be completed from every state the form as rendered can
    reach: filling in each remaining step with valid values and pressing
    Next is offered all along, ends on the review step and leaves the
    form submitted. *)
Theorem can_always_finish (t : list event) (email : string) :
  isEmail email = true →
  offeredAll t init = true →
  let s := run t init in
  let rest := completeFrom email (currentStep s)
                (Z.to_nat (stepCount - 1 - currentStep s)) in
  offeredAll rest s = true ∧
  currentStep (run rest s) = stepCount - 1 ∧
  isSubmitted (run rest s) = true.
Proof.
  intros Hmail Hoff s rest.
  pose proof (run_keeps_Inv t init Inv_init Hoff) as HI. fold s in HI.
  pose proof (inv_range _ HI) as Hrange.
  destruct (completeFrom_finishes email
              (Z.to_nat (stepCount - 1 - currentStep s)) s Hmail HI)
    as (Hall & Hend & HI'); [lia|].
  fold rest in Hall, Hend, HI'. split_and!; [done..|].
  by apply (inv_review _ HI').
Qed.

End Rendering.

(** * Registration *)

Section Registration.
Context {lib : Zod}.

Lemma controlValue_defined f : controlValue f ≠ VUndefined.
Proof. unfold controlValue. by destruct (decide _). Qed.

Lemma prop_insert_same (o : object) k v : prop (<[k := v]> o) k = v.
Proof. unfold prop. by rewrite lookup_insert_eq. Qed.

Lemma register_fold l s :
  let s' := foldl (λ acc f,
                     if decide (prop (formValues acc) f = VUndefined)
                     then setValue f (controlValue f) acc
                     else acc) s l in
  previousStep s' = previousStep s ∧ currentStep s' = currentStep s ∧
  isSubmitted s' = isSubmitted s ∧ formData s' = formData s ∧
  errors s' = errors s ∧ calls s' = calls s ∧
  ∀ f, formValues s' !! f =
         if decide (f ∈ l ∧ prop (formValues s) f = VUndefined)
         then Some (controlValue f) else formValues s !! f.
Proof.
  revert s. induction l as [|a l IH]; intros s; cbn [foldl].
  - done.
  - destruct (decide (prop (formValues s) a = VUndefined)) as [Hun|Hdef].
    + destruct (IH (setValue a (controlValue a) s))
        as (-> & -> & -> & -> & -> & -> & Hv).
      split_and!; try done. intros f. rewrite Hv.
      cbn [setValue formValues].
      destruct (decide (f = a)) as [->|Hne].
      * rewrite prop_insert_same. rewrite decide_False;
          [|intros [_ ?]; by apply (controlValue_defined a)].
        rewrite lookup_insert_eq.
        rewrite decide_True; [done|]. split; [apply list_elem_of_here|done].
      * rewrite prop_insert_ne, lookup_insert_ne by done.
        destruct (decide (f ∈ l ∧ _)) as [[Hin Hu]|Hnot].
        -- rewrite decide_True; [done|]. split; [by apply list_elem_of_further|done].
        -- rewrite decide_False; [done|]. intros [Hin Hu]. apply Hnot.
           apply elem_of_cons in Hin as [?|?]; [done|by split].
    + destruct (IH s) as (-> & -> & -> & -> & -> & -> & Hv).
      split_and!; try done. intros f. rewrite Hv.
      destruct (decide (f ∈ l ∧ _)) as [[Hin Hu]|Hnot].
      * rewrite decide_True; [done|]. split; [by apply list_elem_of_further|done].
      * rewrite decide_False; [done|]. intros [Hin Hu]. apply Hnot.
        apply elem_of_cons in Hin as [->|?]; [done|by split].
Qed.

Lemma registerInputs_frame s :
  previousStep (registerInputs s) = previousStep s ∧
  currentStep (registerInputs s) = currentStep s ∧
  isSubmitted (registerInputs s) = isSubmitted s ∧
  formData (registerInputs s) = formData s ∧
  errors (registerInputs s) = errors s ∧
  calls (registerInputs s) = calls s.
Proof.
  destruct (register_fold (inputsAt (currentStep s)) s)
    as (? & ? & ? & ? & ? & ? & _). by unfold registerInputs.
Qed.

(** After the registration every input of the step holds a value: its
    own if it had one, that of its control otherwise. *)
Lemma registerInputs_lookup s f :
  formValues (registerInputs s) !! f =
    if decide (f ∈ inputsAt (currentStep s) ∧ prop (formValues s) f = VUndefined)
    then Some (controlValue f) else formValues s !! f.
Proof.
  destruct (register_fold (inputsAt (currentStep s)) s)
    as (_ & _ & _ & _ & _ & _ & Hv). apply Hv.
Qed.

Lemma registerInputs_prop s f :
  prop (formValues (registerInputs s)) f =
    if decide (f ∈ inputsAt (currentStep s) ∧ prop (formValues s) f = VUndefined)
    then controlValue f else prop (formValues s) f.
Proof.
  unfold prop at 1. rewrite registerInputs_lookup. by destruct (decide (_ ∧ _)).
Qed.

Lemma rerenderMounted_frame old new :
  previousStep (rerenderMounted old new) = previousStep new ∧
  currentStep (rerenderMounted old new) = currentStep new ∧
  isSubmitted (rerenderMounted old new) = isSubmitted new ∧
  formData (rerenderMounted old new) = formData new ∧
  errors (rerenderMounted old new) = errors new ∧
  calls (rerenderMounted old new) = calls new.
Proof.
  unfold rerenderMounted. destruct (_ =? _); [done|].
  destruct (loadStepData_frame (registerInputs new)) as (-> & -> & -> & -> & -> & ->).
  apply registerInputs_frame.
Qed.

Lemma rerenderMounted_prop old new f :
  prop (formValues (rerenderMounted old new)) f =
    if currentStep old =? currentStep new then prop (formValues new) f
    else match formData new !! f with
         | Some v => v
         | None =>
             if decide (f ∈ inputsAt (currentStep new)
                        ∧ prop (formValues new) f = VUndefined)
             then controlValue f else prop (formValues new) f
         end.
Proof.
  unfold rerenderMounted. destruct (_ =? _); [done|].
  unfold prop at 1. rewrite loadStepData_lookup.
  destruct (registerInputs_frame new) as (_ & _ & _ & -> & _).
  destruct (formData new !! f); [done|].
  apply registerInputs_prop.
Qed.

(** Apart from the inputs, an action does with the registration what it
    does without. *)
Lemma fireMounted_frame e s :
  previousStep (fireMounted e s) = previousStep (fire e s) ∧
  currentStep (fireMounted e s) = currentStep (fire e s) ∧
  isSubmitted (fireMounted e s) = isSubmitted (fire e s) ∧
  formData (fireMounted e s) = formData (fire e s) ∧
  errors (fireMounted e s) = errors (fire e s) ∧
  calls (fireMounted e s) = calls (fire e s).
Proof.
  destruct e as [| |g v|]; cbn [fireMounted fire]; try done.
  - destruct (next s) as [s'|]; [|done].
    destruct (rerenderMounted_frame s s') as (-> & -> & -> & -> & -> & ->).
    by destruct (rerender_frame s s') as (-> & -> & -> & -> & -> & ->).
  - destruct (rerenderMounted_frame s (prev s)) as (-> & -> & -> & -> & -> & ->).
    by destruct (rerender_frame s (prev s)) as (-> & -> & -> & -> & -> & ->).
Qed.

Lemma fireMounted_range e s :
  0 ≤ currentStep s ≤ stepCount - 1 →
  0 ≤ currentStep (fireMounted e s) ≤ stepCount - 1.
Proof.
  intros Hr. destruct (fireMounted_frame e s) as (_ & -> & _).
  by apply fire_range.
Qed.

Lemma mountedInit_range : 0 ≤ currentStep mountedInit ≤ stepCount - 1.
Proof.
  unfold mountedInit. by destruct (registerInputs_frame init) as (_ & -> & _).
Qed.

Lemma runMounted_range t s :
  0 ≤ currentStep s ≤ stepCount - 1 →
  0 ≤ currentStep (runMounted t s) ≤ stepCount - 1.
Proof.
  revert s. induction t as [|e t IH]; intros s Hr; cbn [runMounted]; [done|].
  by apply IH, fireMounted_range.
Qed.

Lemma runMounted_noUndefined t s :
  noUndefined (formData s) → noUndefined (formData (runMounted t s)).
Proof.
  revert s. induction t as [|e t IH]; intros s Hs; cbn [runMounted]; [done|].
  apply IH. destruct (fireMounted_frame e s) as (_ & _ & _ & -> & _).
  by apply fire_noUndefined.
Qed.

(** ** A checkbox the user never touches *)

Lemma stepCount_val : stepCount = 4.
Proof. reflexivity. Qed.

Lemma checkbox_owned f : f ∈ checkboxes ↔ f ∈ ownedFields 2.
Proof. by rewrite ownedFields_inputsAt. Qed.

Lemma checkbox_control f : f ∈ checkboxes → controlValue f = VBoolean false.
Proof. intros Hin. unfold controlValue. by rewrite decide_True. Qed.

Lemma Unchecked_rerender f old new :
  f ∈ checkboxes →
  (prop (formValues new) f = VUndefined ∨
   prop (formValues new) f = VBoolean false) →
  (formData new !! f = None ∨ formData new !! f = Some (VBoolean false)) →
  (currentStep old = currentStep new → 2 ≤ currentStep new →
   prop (formValues new) f = VBoolean false) →
  (stepCount - 1 ≤ currentStep new → prop (formValues new) f = VBoolean false) →
  (currentStep new = stepCount - 1 → formData new !! f = Some (VBoolean false)) →
  0 ≤ currentStep new ≤ stepCount - 1 →
  Unchecked f (rerenderMounted old new).
Proof.
  intros Hbox Hin Hdata Hsame Hpast Hrev Hrange.
  destruct (rerenderMounted_frame old new) as (_ & Hc & _ & Hd & _).
  assert (Hval : prop (formValues (rerenderMounted old new)) f = VUndefined ∨
                 prop (formValues (rerenderMounted old new)) f = VBoolean false).
  { rewrite rerenderMounted_prop. destruct (_ =? _); [done|].
    destruct Hdata as [-> | ->]; [|by right].
    destruct (decide (_ ∧ _)); [right; by apply checkbox_control|done]. }
  split; rewrite ?Hc, ?Hd; try done.
  intros Htwo. rewrite rerenderMounted_prop.
  destruct (Z.eqb_spec (currentStep old) (currentStep new)) as [Heq|Hne];
    [by apply Hsame|].
  destruct Hdata as [-> | ->]; [|done].
  destruct (decide (_ ∧ _)) as [_|Hnot]; [by apply checkbox_control|].
  destruct Hin as [Hun|Hfalse]; [|done].
  destruct (decide (currentStep new = 2)) as [Hcur|Hcur].
  - exfalso. apply Hnot. split; [|done].
    rewrite Hcur, <- ownedFields_inputsAt. by apply checkbox_owned.
  - apply Hpast. pose proof stepCount_val. lia.
Qed.

Lemma Unchecked_fire f e s :
  f ∈ checkboxes → (∀ v, e ≠ Edit f v) →
  0 ≤ currentStep s ≤ stepCount - 1 →
  Unchecked f s → Unchecked f (fireMounted e s).
Proof.
  intros Hbox Hother Hrange [Hin Hdata Hmounted Hrev].
  destruct e as [| |g v|]; cbn [fireMounted].
  - (* Advance *)
    destruct (next s) as [s'|] eqn:Hnext; [|by split].
    destruct (next_cases _ _ Hnext) as (st & Hst & [[Hout ->]|(Hout & Hcur & Hfv & Hfd)]).
    + destruct (trigger_frame (fields st) s) as (_ & Hc1 & _ & Hd1 & Hv1 & _).
      cbn zeta in *.
      apply Unchecked_rerender; rewrite ?Hc1, ?Hd1, ?Hv1; try done.
      intros Hpast. apply Hmounted. pose proof stepCount_val. lia.
    + assert (Hnew : formData s' !! f = None ∨
                     formData s' !! f = Some (VBoolean false)).
      { rewrite Hfd. destruct (decide (_ ∧ _)) as [[_ Hdef]|_]; [|done].
        right. by destruct Hin as [?| ->]. }
      apply Unchecked_rerender; rewrite ?Hfv; try done.
      * intros Heq Htwo. apply Hmounted. rewrite Hcur in Htwo.
        destruct (decide (currentStep s = stepCount - 1)); lia.
      * intros Hpast. apply Hmounted. rewrite Hcur in Hpast.
        pose proof stepCount_val.
        destruct (decide (currentStep s = stepCount - 1)); lia.
      * intros Hend. rewrite Hfd. rewrite Hcur in Hend.
        destruct (decide (currentStep s = stepCount - 1)) as [Hlast|Hnot].
        -- rewrite decide_False; [by apply Hrev|].
           intros [Hown _]. apply owned_range in Hown. lia.
        -- assert (Htwo : currentStep s = 2).
           { pose proof stepCount_val. lia. }
           rewrite (Hmounted ltac:(lia)), decide_True; [done|].
           split; [|done]. rewrite Htwo. by apply checkbox_owned.
      * rewrite Hcur. destruct (decide (currentStep s = stepCount - 1)); lia.
  - (* Retreat *)
    unfold prev. destruct (Z.ltb_spec 0 (currentStep s)) as [Hpos|Hzero].
    + apply Unchecked_rerender;
        cbn [setCurrentStep setPreviousStep currentStep formData formValues];
        try done.
      * intros Heq. lia.
      * intros Hpast. lia.
      * intros Hend. lia.
      * lia.
    + apply Unchecked_rerender; try done.
      intros Hpast. pose proof stepCount_val. lia.
  - (* Edit *)
    assert (g ≠ f) as Hne by (intros ->; by apply (Hother v)).
    split; cbn [setValue currentStep formData formValues];
      rewrite ?prop_insert_ne by done; done.
  - (* Submit *)
    destruct (handleSubmit_frame s) as (_ & Hc & Hd & Hv & _). cbn zeta in *.
    split; rewrite ?Hc, ?Hd, ?Hv; done.
Qed.

Lemma Unchecked_mountedInit f : f ∈ checkboxes → Unchecked f mountedInit.
Proof.
  intros Hbox. unfold mountedInit.
  destruct (registerInputs_frame init) as (_ & Hc & _ & Hd & _).
  split; rewrite ?Hc, ?Hd; cbn [init currentStep formData]; try done.
  - left. rewrite registerInputs_prop. rewrite decide_False; [done|].
    intros [Hin _]. cbn [init currentStep] in Hin.
    rewrite <- ownedFields_inputsAt in Hin.
    pose proof (proj1 (checkbox_owned f) Hbox) as Hown.
    by pose proof (ownedFields_disjoint _ _ _ Hin Hown).
  - by left.
Qed.

Lemma runMounted_Unchecked f t s :
  f ∈ checkboxes → untouched f t →
  0 ≤ currentStep s ≤ stepCount - 1 →
  Unchecked f s → Unchecked f (runMounted t s).
Proof.
  intros Hbox. revert s.
  induction t as [|e t IH]; intros s Hun Hrange HU; cbn [runMounted]; [done|].
  apply Forall_cons in Hun as [Hhead Htail].
  apply IH; [done|by apply fireMounted_range|by apply Unchecked_fire].
Qed.

(** C10, as the code has it.  [saveStepData] skips every field whose
    current value is [undefined], so [formData] never maps a key to
    [undefined], in any reachable state, with or without the
    registration of the inputs; a field whose input holds [undefined]
    when its step is saved adds no key.  A mounted input holds a value,
    though: a checkbox the user never touched holds false, so once the
    review step is reached it is recorded as false and the review shows
    "No". *)
Theorem formData_skips_undefined :
  (∀ t, noUndefined (formData (runMounted t mountedInit)) ∧
        noUndefined (formData (run t init))) ∧
  (∀ s, noUndefined (formData s) → noUndefined (formData (saveStepData s))) ∧
  (∀ s f, prop (formValues s) f = VUndefined →
          formData (saveStepData s) !! f = formData s !! f) ∧
  (∀ s f, f ∈ inputsAt (currentStep s) →
          prop (formValues (registerInputs s)) f ≠ VUndefined) ∧
  (∀ t f, f ∈ checkboxes → untouched f t →
          currentStep (runMounted t mountedInit) = stepCount - 1 →
          formData (runMounted t mountedInit) !! f = Some (VBoolean false) ∧
          formatValue (prop (formData (runMounted t mountedInit)) f) = "No").
Proof.
  split_and!.
  - intros t. split.
    + apply runMounted_noUndefined. unfold mountedInit.
      destruct (registerInputs_frame init) as (_ & _ & _ & -> & _).
      intros k. cbn [init formData]. by rewrite lookup_empty.
    + apply run_noUndefined. intros k. cbn [init formData].
      by rewrite lookup_empty.
  - apply saveStepData_noUndefined.
  - intros s f Hundef. rewrite saveStepData_lookup.
    rewrite decide_False; [done|]. by intros [_ ?].
  - intros s f Hin. rewrite registerInputs_prop.
    destruct (decide (_ ∧ _)) as [_|Hnot]; [apply controlValue_defined|].
    intros Hun. by apply Hnot.
  - intros t f Hbox Hun Hend.
    pose proof (runMounted_Unchecked f t mountedInit Hbox Hun
                  mountedInit_range (Unchecked_mountedInit f Hbox)) as HU.
    pose proof (un_review _ _ HU Hend) as Hkey.
    split; [done|]. unfold prop. by rewrite Hkey.
Qed.

(** ** Registration as changes of inputs *)

Lemma state_ext (s1 s2 : state) :
  previousStep s1 = previousStep s2 → currentStep s1 = currentStep s2 →
  isSubmitted s1 = isSubmitted s2 → formData s1 = formData s2 →
  formValues s1 = formValues s2 → errors s1 = errors s2 →
  calls s1 = calls s2 → s1 = s2.
Proof. destruct s1, s2. cbn. by intros -> -> -> -> -> -> ->. Qed.

(** Changes of inputs of the current step are offered and touch the
    inputs only. *)
Lemma run_edits l (d : string → value) s :
  (∀ f, f ∈ l → f ∈ inputsAt (currentStep s)) →
  offeredAll ((λ f, Edit f (d f)) <$> l) s = true ∧
  previousStep (run ((λ f, Edit f (d f)) <$> l) s) = previousStep s ∧
  currentStep (run ((λ f, Edit f (d f)) <$> l) s) = currentStep s ∧
  isSubmitted (run ((λ f, Edit f (d f)) <$> l) s) = isSubmitted s ∧
  formData (run ((λ f, Edit f (d f)) <$> l) s) = formData s ∧
  errors (run ((λ f, Edit f (d f)) <$> l) s) = errors s ∧
  calls (run ((λ f, Edit f (d f)) <$> l) s) = calls s ∧
  ∀ f, formValues (run ((λ f, Edit f (d f)) <$> l) s) !! f =
         if decide (f ∈ l) then Some (d f) else formValues s !! f.
Proof.
  revert s. induction l as [|a l IH]; intros s Hin.
  - cbn. split_and!; try done.
  - cbn [fmap list_fmap offeredAll run offered fire].
    destruct (IH (setValue a (d a) s)) as (-> & -> & -> & -> & -> & -> & -> & Hv).
    { intros f Hf. apply Hin. by apply list_elem_of_further. }
    split_and!; try done.
    + rewrite andb_true_r. apply bool_decide_eq_true, Hin, list_elem_of_here.
    + intros f. rewrite Hv. cbn [setValue formValues].
      destruct (decide (f ∈ l)) as [Hl|Hl].
      * rewrite decide_True; [done|by apply list_elem_of_further].
      * destruct (decide (f = a)) as [->|Hne].
        -- rewrite decide_True; [|apply list_elem_of_here].
           by rewrite lookup_insert_eq.
        -- rewrite decide_False; [|by apply not_elem_of_cons].
           by rewrite lookup_insert_ne.
Qed.

(** The registration of a step is the sequence of changes that gives
    every input without a value the value of its control. *)
Lemma registerInputs_run s :
  offeredAll (registrations s) s = true ∧
  run (registrations s) s = registerInputs s.
Proof.
  unfold registrations.
  destruct (run_edits
              (filter (λ f, prop (formValues s) f = VUndefined)
                      (inputsAt (currentStep s))) controlValue s)
    as (Hoff & Hp & Hc & Hs & Hd & He & Hl & Hv).
  { intros f Hf. by apply list_elem_of_filter in Hf as [_ ?]. }
  split; [done|].
  destruct (registerInputs_frame s) as (Hp' & Hc' & Hs' & Hd' & He' & Hl').
  apply state_ext; try congruence.
  apply map_eq. intros f. rewrite Hv, registerInputs_lookup.
  destruct (decide (f ∈ inputsAt (currentStep s) ∧ _)) as [[Hin Hun]|Hnot].
  - rewrite decide_True; [done|]. by apply list_elem_of_filter.
  - rewrite decide_False; [done|]. intros Hf. apply Hnot.
    by apply list_elem_of_filter in Hf as [? ?].
Qed.

(** With no [undefined] among the recorded values, registering before
    the recorded data is loaded or after it comes to the same. *)
Lemma register_load_commute s :
  noUndefined (formData s) →
  loadStepData (registerInputs s) = registerInputs (loadStepData s).
Proof.
  intros Hno.
  destruct (registerInputs_frame s) as (Hp & Hc & Hs & Hd & He & Hl).
  destruct (loadStepData_frame (registerInputs s)) as (Hp1 & Hc1 & Hs1 & Hd1 & He1 & Hl1).
  destruct (loadStepData_frame s) as (Hp2 & Hc2 & Hs2 & Hd2 & He2 & Hl2).
  destruct (registerInputs_frame (loadStepData s))
    as (Hp3 & Hc3 & Hs3 & Hd3 & He3 & Hl3).
  apply state_ext; try congruence.
  apply map_eq. intros f.
  assert (Hloaded : prop (formValues (loadStepData s)) f =
                    match formData s !! f with
                    | Some v => v
                    | None => prop (formValues s) f
                    end).
  { unfold prop. rewrite loadStepData_lookup. by destruct (formData s !! f). }
  rewrite loadStepData_lookup, Hd, !registerInputs_lookup, Hc2, Hloaded.
  rewrite loadStepData_lookup.
  destruct (formData s !! f) as [v|] eqn:E; [|done].
  rewrite decide_False; [done|]. intros [_ ->]. by apply (Hno f).
Qed.

(** An action with the registration it triggers is the action followed
    by offered changes of inputs. *)
Lemma fireMounted_run e s :
  noUndefined (formData s) → offered s e = true →
  ∃ regs, offeredAll (e :: regs) s = true ∧
          run (e :: regs) s = fireMounted e s.
Proof.
  intros Hno Hoff.
  assert (Hmoved : ∀ new,
            formData (rerender s new) = formData new →
            noUndefined (formData (rerender s new)) →
            ∃ regs, offeredAll regs (rerender s new) = true ∧
                    run regs (rerender s new) = rerenderMounted s new).
  { intros new Hd Hnew. unfold rerender, rerenderMounted in *.
    destruct (currentStep s =? currentStep new).
    - by exists [].
    - exists (registrations (loadStepData new)).
      rewrite register_load_commute by by rewrite <- Hd.
      apply registerInputs_run. }
  pose proof (fire_noUndefined e s Hno) as Hafter.
  destruct e as [| |g v|]; cbn [fire fireMounted run offeredAll] in *;
    rewrite Hoff; cbn [andb].
  - destruct (next s) as [s'|] eqn:Hnext; [|by exists []].
    apply Hmoved; [|done]. by destruct (rerender_frame s s') as (_ & _ & _ & -> & _).
  - apply Hmoved; [|done].
    by destruct (rerender_frame s (prev s)) as (_ & _ & _ & -> & _).
  - by exists [].
  - by exists [].
Qed.

(** Every execution with the registration of the inputs is an execution
    without it, in which the registrations appear as offered changes of
    inputs: what holds of all offered executions from [init] holds of
    the form with its inputs registered. *)
Lemma runMounted_run t s :
  noUndefined (formData s) → offeredAllMounted t s = true →
  ∃ t', offeredAll t' s = true ∧ run t' s = runMounted t s.
Proof.
  revert s. induction t as [|e t IH]; intros s Hno Hoff.
  - by exists [].
  - cbn [offeredAllMounted runMounted] in *.
    apply andb_true_iff in Hoff as [Hhead Htail].
    destruct (fireMounted_run e s Hno Hhead) as (regs & Hregs & Hrun).
    destruct (IH (fireMounted e s)) as (t' & Ht' & Hrun'); [|done|].
    { destruct (fireMounted_frame e s) as (_ & _ & _ & -> & _).
      by apply fire_noUndefined. }
    exists ((e :: regs) ++ t').
    rewrite offeredAll_app, run_app, Hregs, Hrun. by split.
Qed.

Lemma mounted_executions t :
  offeredAllMounted t mountedInit = true →
  ∃ t', offeredAll t' init = true ∧ run t' init = runMounted t mountedInit.
Proof.
  intros Hoff. destruct (registerInputs_run init) as [Hreg Hrun].
  fold mountedInit in Hrun.
  destruct (runMounted_run t mountedInit) as (t' & Ht' & Hrun'); [|done|].
  { unfold mountedInit. destruct (registerInputs_frame init) as (_ & _ & _ & -> & _).
    intros k. cbn [init formData]. by rewrite lookup_empty. }
  exists (registrations init ++ t').
  rewrite offeredAll_app, run_app, Hreg, Hrun. by split.
Qed.

End Registration.

(** ** The further properties on sample data *)

Lemma formatFieldName_injective_witness :
  formatFieldName "firstName" = "First Name" ∧ "firstName" = "firstName".
Proof.
  split; [vm_compute; reflexivity|].
  apply formatFieldName_injective.
  - vm_compute. repeat split; lia.
  - vm_compute. repeat split; lia.
  - reflexivity.
Defined.

Lemma formatFieldName_shape_witness :
  String.length (formatFieldName "enableNotification") = 19%nat.
Proof.
  destruct (formatFieldName_shape "enableNotification") as [Hlen _].
  - vm_compute. repeat split; lia.
  - rewrite Hlen. vm_compute. reflexivity.
Defined.

Lemma transition_direction_witness :
  initialX (fire (lib := sampleZod) Retreat addressReached) = "-50%" ∧
  initialX (fire (lib := sampleZod) Advance personalFilled) = "50%".
Proof.
  destruct (transition_direction (lib := sampleZod)) as [Hmove _].
  split.
  - destruct (Hmove Retreat addressReached) as [(Hup & _)|(_ & _ & Hx)].
    + vm_compute. discriminate.
    + vm_compute in Hup. discriminate Hup.
    + exact Hx.
  - destruct (Hmove Advance personalFilled) as [(_ & _ & Hx)|(Hdown & _)].
    + vm_compute. discriminate.
    + exact Hx.
    + vm_compute in Hdown. discriminate Hdown.
Defined.

Lemma save_load_roundtrip_witness :
  formValues (loadStepData (saveStepData personalFilled)) !! "firstName"
  = Some (VString "Ada").
Proof.
  destruct (save_load_roundtrip personalFilled) as [Hback _].
  apply Hback.
  - assert (Hown : ownedFields (currentStep personalFilled)
                   = ["firstName"; "lastName"; "email"])
      by (vm_compute; reflexivity).
    rewrite Hown. apply list_elem_of_here.
  - vm_compute. reflexivity.
  - discriminate.
Defined.

Lemma review_agrees_with_inputs_witness :
  prop (formData (run (lib := sampleZod) traversal init)) "city"
  = prop (formValues (run (lib := sampleZod) traversal init)) "city" ∧
  errors (run (lib := sampleZod) traversal init) = ∅.
Proof.
  destruct (review_agrees_with_inputs (lib := sampleZod) traversal)
    as (Hagree & Hnone & _).
  - vm_compute. reflexivity.
  - vm_compute. reflexivity.
  - split; [exact (Hagree "city")|exact Hnone].
Defined.

Lemma traversal_offered : offeredAll (lib := sampleZod) traversal init = true.
Proof. vm_compute. reflexivity. Qed.

Lemma traversal_ends :
  currentStep (run (lib := sampleZod) traversal init) = stepCount - 1.
Proof. vm_compute. reflexivity. Qed.

Lemma back_and_forth_witness :
  currentStep (run (lib := sampleZod) [Retreat; Advance]
                 (run (lib := sampleZod) traversal init))
  = currentStep (run (lib := sampleZod) traversal init) ∧
  formData (run (lib := sampleZod) [Retreat; Advance]
              (run (lib := sampleZod) traversal init))
  = formData (run (lib := sampleZod) traversal init).
Proof.
  assert (Hpos : 1 ≤ currentStep (run (lib := sampleZod) traversal init)).
  { vm_compute. discriminate. }
  destruct (back_and_forth (lib := sampleZod) traversal traversal_offered Hpos)
    as (_ & Hcur & Hdata & _).
  exact (conj Hcur Hdata).
Defined.

Lemma can_always_finish_witness :
  ∃ rest,
    offeredAll (lib := sampleZod) rest
      (run (lib := sampleZod) (fillPersonal ++ [Advance]) init) = true ∧
    isSubmitted (run (lib := sampleZod) rest
                   (run (lib := sampleZod) (fillPersonal ++ [Advance]) init))
    = true.
Proof.
  assert (Hmail : isEmail (Zod := sampleZod) "a@b" = true)
    by (vm_compute; reflexivity).
  assert (Hoff : offeredAll (lib := sampleZod) (fillPersonal ++ [Advance]) init
                 = true) by (vm_compute; reflexivity).
  destruct (can_always_finish (lib := sampleZod)
              (fillPersonal ++ [Advance]) "a@b" Hmail Hoff)
    as (Hall & _ & Hsub).
  eexists. split; [exact Hall|exact Hsub].
Defined.

(** ** Registration on sample data *)

Lemma traversal_untouched : untouched "enableNotification" traversal.
Proof. repeat constructor; discriminate. Qed.

Lemma traversal_mounted_ends :
  currentStep (runMounted (lib := sampleZod) traversal mountedInit)
  = stepCount - 1.
Proof. vm_compute. reflexivity. Qed.

Lemma traversal_mounted_key :
  formData (runMounted (lib := sampleZod) traversal mountedInit)
    !! "enableNotification" = Some (VBoolean false).
Proof. vm_compute. reflexivity. Qed.

Lemma formData_skips_undefined_witness :
  formData (runMounted (lib := sampleZod) traversal mountedInit)
    !! "enableNotification" = Some (VBoolean false) ∧
  formatValue (prop (formData (runMounted (lib := sampleZod) traversal mountedInit))
                    "enableNotification") = "No".
Proof.
  destruct (formData_skips_undefined (lib := sampleZod)) as (_ & _ & _ & _ & Hbox).
  apply Hbox.
  - apply list_elem_of_further, list_elem_of_here.
  - exact traversal_untouched.
  - exact traversal_mounted_ends.
Defined.

(** C10 as worded fails: in the traversal in which the user never
    touches the second checkbox, its input is registered as false when
    step 2 is mounted, and completing the step records the key. *)
Lemma untouched_checkbox_recorded :
  ¬ untouchedLeavesNoKey (lib := sampleZod) traversal "enableNotification".
Proof.
  intros Hclaim. specialize (Hclaim traversal_untouched).
  rewrite traversal_mounted_key in Hclaim. discriminate Hclaim.
Qed.

(** The traversal with its registrations written out is the traversal
    of the form with its inputs registered. *)
Lemma traversalRegistered_mounted :
  offeredAll (lib := sampleZod) traversalRegistered init = true ∧
  formData (run (lib := sampleZod) traversalRegistered init)
  = formData (runMounted (lib := sampleZod) traversal mountedInit) ∧
  formValues (run (lib := sampleZod) traversalRegistered init)
  = formValues (runMounted (lib := sampleZod) traversal mountedInit).
Proof.
  split_and!.
  - vm_compute. reflexivity.
  - refine (bool_decide_eq_true_1 _ _). vm_compute. reflexivity.
  - refine (bool_decide_eq_true_1 _ _). vm_compute. reflexivity.
Qed.

Lemma traversalRegistered_ends :
  currentStep (run (lib := sampleZod) traversalRegistered init) = stepCount - 1.
Proof. vm_compute. reflexivity. Qed.

Lemma traversalRegistered_rows :
  reviewRows (run (lib := sampleZod) traversalRegistered init) =
    [ ("Personal Information",
       [("First Name", "Ada"); ("Last Name", "Lovelace");
        ("Email", "ada@example.org")]);
      ("Address Details",
       [("Country", "UK"); ("State", "England"); ("City", "London");
        ("Street", "St James"); ("Zip", "SW1")]);
      ("Preferences",
       [("Join Newsletter", "Yes"); ("Enable Notification", "No")]) ].
Proof. vm_compute. reflexivity. Qed.

Lemma review_shows_recorded_witness :
  ∃ field, "Enable Notification" = formatFieldName field ∧
           shownAs (lib := sampleZod)
                   (run (lib := sampleZod) traversalRegistered init)
                   field "No".
Proof.
  refine (review_shows_recorded (lib := sampleZod) traversalRegistered
            (proj1 traversalRegistered_mounted) traversalRegistered_ends
            "Preferences"
            [("Join Newsletter", "Yes"); ("Enable Notification", "No")]
            "Enable Notification" "No" _ _).
  - rewrite traversalRegistered_rows.
    apply list_elem_of_further, list_elem_of_further, list_elem_of_here.
  - apply list_elem_of_further, list_elem_of_here.
Defined.

Lemma personalRetried_owned :
  ownedFields (currentStep personalRetried) = ["firstName"; "lastName"; "email"].
Proof. vm_compute. reflexivity. Qed.

Lemma advance_clears_errors_witness :
  errors personalRetried !! "firstName" = Some "First name is required" ∧
  ∃ s', next (lib := sampleZod) personalRetried = Some s' ∧
        errors s' !! "firstName" = None.
Proof.
  split; [vm_compute; reflexivity|].
  destruct (advance_clears_errors (lib := sampleZod) personalRetried
              (StepDef "Step 1" "Personal Information"
                 (Some ["firstName"; "lastName"; "email"])))
    as (s' & Hnext & Hclear).
  - vm_compute. reflexivity.
  - vm_compute. reflexivity.
  - intros f Hf. rewrite personalRetried_owned in Hf. split_cons.
    destruct_or!; try done; subst f; vm_compute; reflexivity.
  - exists s'. split; [exact Hnext|]. apply Hclear.
    rewrite personalRetried_owned. apply list_elem_of_here.
Defined.
